(** * EORA RAG service: a shallow embedding of the retrieval pipeline

    The development follows [src/vectorstore.py] (class [EoraVectorStore]:
    [_get_embedding], [_chunk_text], [search]) and [src/rag_service.py]
    (class [EoraRAGService]: session memory, prompt assembly, [get_answer]),
    and further [add_cases] of the vector store, the handler [ask_question]
    of [src/app.py] and the selection step of [_extract_content] of
    [src/parser.py].

    Python values are modelled as follows.
    - [str] is a list of Unicode code points ([N]); [len] and slicing count
      code points, as in Python 3.
    - [int] is [Z]; [//] is [Z.div] (both round towards minus infinity).
    - [float] is the IEEE 754 binary64 type of the kernel ([PrimFloat.float]).
    - an exception is represented by its message [str(e)].
    - [dict] used as a map is a [gmap]; [set] is a [gset].
    - a value decoded from JSON is a [Json]; the keys of [self.sessions] are
      the hashable ones among them, up to the equality of dict keys
      ([Key]). *)

From Stdlib Require Import ZArith NArith List Ascii String.
From Stdlib Require Floats.PrimFloat Floats.SpecFloat Floats.FloatOps.
From stdpp Require Import gmap list strings pretty sorting.

Local Open Scope Z_scope.

Abbreviation float := PrimFloat.float.
Abbreviation str := (list N).

(** ** Python prelude *)

Module Py.

(** String literals of the source are written as UTF-8 text and decoded to
    code points. [need] counts the continuation bytes still expected. *)
Fixpoint utf8_go (bs : list N) (need : nat) (acc : N) : str :=
  match bs with
  | [] => []
  | b :: bs' =>
      match need with
      | O =>
          if (b <? 128)%N then b :: utf8_go bs' 0 0%N
          else if (b <? 224)%N then utf8_go bs' 1 (b - 192)%N
          else if (b <? 240)%N then utf8_go bs' 2 (b - 224)%N
          else utf8_go bs' 3 (b - 240)%N
      | S n =>
          let acc' := (acc * 64 + (b - 128))%N in
          match n with
          | O => acc' :: utf8_go bs' 0 0%N
          | S _ => utf8_go bs' n acc'
          end
      end
  end.

Definition u (s : string) : str :=
  utf8_go (map N_of_ascii (list_ascii_of_string s)) 0 0%N.

(** Exceptions: [Ok v] is a normal return, [Raise msg] an exception whose
    [str(e)] is [msg]. *)
Inductive result (A : Type) : Type :=
  | Ok (a : A)
  | Raise (e : str).
Arguments Ok {A} a.
Arguments Raise {A} e.

Definition rbind {A B} (m : result A) (k : A -> result B) : result B :=
  match m with
  | Ok a => k a
  | Raise e => Raise e
  end.

Notation "'let*' x ':=' m 'in' k" := (rbind m (fun x => k))
  (at level 10, x name, m at level 100, k at level 200).

Definition len {A} (l : list A) : Z := Z.of_nat (length l).

Definition IndexError_str : str := u "string index out of range".
Definition IndexError_list : str := u "list index out of range".

(** [l[i]]: a negative index counts from the end; out of range raises. *)
Definition getitem {A} (msg : str) (l : list A) (i : Z) : result A :=
  let j := if i <? 0 then i + len l else i in
  if (j <? 0) || (len l <=? j) then Raise msg
  else match l !! Z.to_nat j with
       | Some x => Ok x
       | None => Raise msg
       end.

(** Slice bounds are clamped, never raise ([PySlice_AdjustIndices]). *)
Definition slice_bound (n i : Z) : Z :=
  if i <? 0 then Z.max 0 (i + n) else Z.min i n.

(** [l[lo:hi]] *)
Definition slice {A} (l : list A) (lo hi : Z) : list A :=
  let lo' := slice_bound (len l) lo in
  let hi' := slice_bound (len l) hi in
  take (Z.to_nat (hi' - lo')) (drop (Z.to_nat lo') l).

(** [l[lo:]] *)
Definition slice_from {A} (l : list A) (lo : Z) : list A :=
  drop (Z.to_nat (slice_bound (len l) lo)) l.

(** [l[:hi]] *)
Definition slice_to {A} (l : list A) (hi : Z) : list A :=
  take (Z.to_nat (slice_bound (len l) hi)) l.

(** [str.isspace] for one code point: the characters [str.strip()] removes. *)
Definition isspace (c : N) : bool :=
  ((9 <=? c) && (c <=? 13) || (28 <=? c) && (c <=? 32)
   || (c =? 133) || (c =? 160) || (c =? 5760)
   || (8192 <=? c) && (c <=? 8202)
   || (c =? 8232) || (c =? 8233) || (c =? 8239) || (c =? 8287)
   || (c =? 12288))%N.

Fixpoint lstrip (s : str) : str :=
  match s with
  | c :: s' => if isspace c then lstrip s' else s
  | [] => []
  end.

Definition rstrip (s : str) : str := reverse (lstrip (reverse s)).

(** [s.strip()] *)
Definition strip (s : str) : str := rstrip (lstrip s).

(** Truth value of a sequence: [if chunk:] / [if not search_results:]. *)
Definition truthy {A} (l : list A) : bool :=
  match l with [] => false | _ => true end.

(** [sep.join(parts)] *)
Fixpoint join (sep : str) (parts : list str) : str :=
  match parts with
  | [] => []
  | [p] => p
  | p :: ps => p ++ sep ++ join sep ps
  end.

(** [s.startswith(p)] *)
Fixpoint startswith (p s : str) : bool :=
  match p, s with
  | [], _ => true
  | a :: p', b :: s' => (a =? b)%N && startswith p' s'
  | _ :: _, [] => false
  end.

(** [needle in hay] for strings. *)
Fixpoint contains (needle hay : str) : bool :=
  startswith needle hay
  || match hay with
     | [] => false
     | _ :: hay' => contains needle hay'
     end.

(** [str(i)] for an integer. *)
Definition str_of_int (i : Z) : str := u (pretty i).

End Py.

Import Py.

(** ** [EoraVectorStore] (src/vectorstore.py) *)

(** Metadata dictionaries are built in [add_cases] with exactly these keys. *)
Record Metadata : Type := {
  url : str;
  title : str;
  description : str;
  chunk_index : Z;
  total_chunks : Z
}.

(** One stored entry of the ChromaDB collection. *)
Record Entry : Type := {
  entry_id : str;
  entry_embedding : list float;
  entry_document : str;
  entry_metadata : Metadata
}.

(** What [collection.query(..., include=[documents, metadatas, distances])]
    returns: one inner list per query embedding. *)
Record QueryResult : Type := {
  documents : list (list str);
  metadatas : list (list Metadata);
  distances : list (list float)
}.

(** The external collaborators as they answer during one request: the
    embedding service, the nearest-neighbour query of the index, the
    generative model and the clock. *)
Record World : Type := {
  embed_content : str -> str -> result (list float);
  collection_query : list Entry -> list (list float) -> Z -> result QueryResult;
  generate_content : str -> result str;
  time_time : float
}.

(** One entry of the list [search] returns. *)
Record SearchResult : Type := {
  content : str;
  metadata : Metadata;
  similarity : float
}.

(** [np.linalg.norm] of a one-dimensional array: the square root of the
    sum of squares. numpy does not fix the order of the summation; the
    statements below evaluate it on zero vectors only, where every order
    gives 0. *)
Definition np_linalg_norm (v : list float) : float :=
  PrimFloat.sqrt
    (fold_left (fun acc x => PrimFloat.add acc (PrimFloat.mul x x)) v PrimFloat.zero).

(** [_get_embedding]: [None] is Python's [None], returned from the
    [except Exception] branch. Division of a float64 array by a scalar never
    raises: under numpy's default error state a zero divisor only warns. *)
Definition _get_embedding (w : World) (text task_type : str) : option (list float) :=
  match embed_content w text task_type with
  | Raise _ => None
  | Ok embedding =>
      let norm := np_linalg_norm embedding in
      Some (map (fun x => PrimFloat.div x norm) embedding)
  end.

(** [text[i] in '.!?'] for a one-character [text[i]]. *)
Definition is_terminal (c : N) : bool :=
  ((c =? 46) || (c =? 33) || (c =? 63))%N.

(** The [for i in range(end, stop, -1)] loop, [n] iterations left:
    [Some e] when it breaks with [end = e], [None] when it runs out. *)
Fixpoint scan_back (text : str) (i : Z) (n : nat) : result (option Z) :=
  match n with
  | O => Ok None
  | S n' =>
      let* c := getitem IndexError_str text i in
      if is_terminal c then Ok (Some (i + 1))
      else scan_back text (i - 1) n'
  end.

(** Lines 81-89: the end of the window that starts at [start]. *)
Definition window_end (text : str) (chunk_size start : Z) : result Z :=
  let end_ := start + chunk_size in
  if end_ <? len text then
    let stop := Z.max (start + chunk_size / 2) (end_ - 100) in
    let* r := scan_back text end_ (Z.to_nat (end_ - stop)) in
    Ok (match r with Some e => e | None => end_ end)
  else Ok end_.

(** The [while start < len(text)] loop. [None]: the fuel ran out. *)
Fixpoint chunk_loop (fuel : nat) (text : str) (chunk_size overlap : Z)
    (start : Z) (chunks : list str) : option (result (list str)) :=
  match fuel with
  | O => None
  | S fuel' =>
      if start <? len text then
        match window_end text chunk_size start with
        | Raise e => Some (Raise e)
        | Ok end_ =>
            let chunk := strip (slice text start end_) in
            let chunks := if truthy chunk then chunks ++ [chunk] else chunks in
            let start := end_ - overlap in
            if len text <=? start then Some (Ok chunks)
            else chunk_loop fuel' text chunk_size overlap start chunks
        end
      else Some (Ok chunks)
  end.

Definition _chunk_text (fuel : nat) (text : str) (chunk_size overlap : Z)
    : option (result (list str)) :=
  if len text <=? chunk_size then Some (Ok [text])
  else chunk_loop fuel text chunk_size overlap 0 [].

(** Instrumentation of the same loop: the windows [(start, end)] it cuts,
    in order. [None] when the fuel runs out or an index is out of range. *)
Fixpoint chunk_windows (fuel : nat) (text : str) (chunk_size overlap : Z)
    (start : Z) : option (list (Z * Z)) :=
  match fuel with
  | O => None
  | S fuel' =>
      if start <? len text then
        match window_end text chunk_size start with
        | Raise _ => None
        | Ok end_ =>
            let start' := end_ - overlap in
            if len text <=? start' then Some [(start, end_)]
            else cons (start, end_) <$>
                   chunk_windows fuel' text chunk_size overlap start'
        end
      else Some []
  end.

(** One iteration of the result loop of [search] (lines 171-177). *)
Definition search_row (results : QueryResult) (i : Z) : result SearchResult :=
  let* docs := getitem IndexError_list (documents results) 0 in
  let* doc := getitem IndexError_list docs i in
  let* metas := getitem IndexError_list (metadatas results) 0 in
  let* meta := getitem IndexError_list metas i in
  let* dists := getitem IndexError_list (distances results) 0 in
  let* dist := getitem IndexError_list dists i in
  Ok {| content := doc; metadata := meta;
        similarity := PrimFloat.sub PrimFloat.one dist |}.

(** A [for] loop that appends one value per element and stops at the first
    exception. *)
Fixpoint for_each {A B} (f : A -> result B) (l : list A) : result (list B) :=
  match l with
  | [] => Ok []
  | a :: l' =>
      let* b := f a in
      let* bs := for_each f l' in
      Ok (b :: bs)
  end.

(** [search]: the collection is read, never written. *)
Definition search (w : World) (collection : list Entry) (query : str)
    (n_results : Z) : result (list SearchResult) :=
  match _get_embedding w query (u "retrieval_query") with
  | None => Ok []
  | Some query_embedding =>
      let* results := collection_query w collection [query_embedding] n_results in
      let* docs := getitem IndexError_list (documents results) 0 in
      for_each (search_row results) (seqZ 0 (len docs))
  end.

(** ** Values decoded from JSON

    What [json.loads] and [request.get_json()] return: [None], a [bool], an
    [int], a [float], a [str], a [list] or a [dict] with string keys. *)

#[warnings="-register-all"]
Inductive Json : Type :=
  | JNull
  | JBool (b : bool)
  | JInt (z : Z)
  | JFloat (f : float)
  | JString (s : str)
  | JArray (items : list Json)
  | JObject (members : gmap str Json).

(** The handler of this program logs exceptions without showing their text;
    of these three only the class is kept. *)
Definition TypeError : str := u "TypeError".
Definition AttributeError : str := u "AttributeError".
Definition KeyError (key : str) : str := u "'" ++ key ++ u "'".

(** Truth value: [not v] holds for [None], [False], 0, 0.0, an empty string,
    list or dict; a NaN is true. *)
Definition json_truthy (v : Json) : bool :=
  match v with
  | JNull => false
  | JBool b => b
  | JInt z => negb (z =? 0)
  | JFloat f => negb (PrimFloat.eqb f PrimFloat.zero)
  | JString s => truthy s
  | JArray items => truthy items
  | JObject members => truthy (map_to_list members)
  end.

(** [key in v] for a string [key]: a substring test on a string, a search
    for an equal element in a list, a key test on a dict; the other values
    are not containers. *)
Definition json_contains (key : str) (v : Json) : result bool :=
  match v with
  | JString s => Ok (contains key s)
  | JArray items =>
      Ok (existsb (fun item => match item with
                               | JString s => bool_decide (s = key)
                               | _ => false
                               end) items)
  | JObject members => Ok (bool_decide (is_Some (members !! key)))
  | _ => Raise TypeError
  end.

(** [v[key]] for a string [key]: only a dict takes it. *)
Definition json_getitem (v : Json) (key : str) : result Json :=
  match v with
  | JObject members =>
      match members !! key with
      | Some value => Ok value
      | None => Raise (KeyError key)
      end
  | _ => Raise TypeError
  end.

(** [v.get(key, default)]: a method of dicts only. *)
Definition json_get (v : Json) (key : str) (default : Json) : result Json :=
  match v with
  | JObject members =>
      Ok (match members !! key with
          | Some value => value
          | None => default
          end)
  | _ => Raise AttributeError
  end.

(** [v.strip()]: a method of strings only. *)
Definition json_strip (v : Json) : result str :=
  match v with
  | JString s => Ok (strip s)
  | _ => Raise AttributeError
  end.

(** The keys of [self.sessions]. [get_answer] is written for strings, and
    the HTTP handler passes on whatever the body holds: a dict takes every
    hashable value, and takes two values for the same key when they are
    equal. [True], 1 and 1.0 are one key ([KInt 1]), 0, 0.0 and -0.0 are one
    key, a float with a fraction, an infinity or the NaN of the decoder are
    keys of their own. *)
Inductive Key : Type :=
  | KNone
  | KInt (z : Z)
  | KFloat (f : SpecFloat.spec_float)
  | KStr (s : str).

#[global] Instance spec_float_eq_dec : EqDecision SpecFloat.spec_float.
Proof. solve_decision. Defined.

#[global] Instance spec_float_countable : Countable SpecFloat.spec_float.
Proof.
  refine (inj_countable'
    (fun f => match f with
              | SpecFloat.S754_zero s => inl s
              | SpecFloat.S754_infinity s => inr (inl s)
              | SpecFloat.S754_nan => inr (inr (inl tt))
              | SpecFloat.S754_finite s m e => inr (inr (inr (s, m, e)))
              end)
    (fun x => match x with
              | inl s => SpecFloat.S754_zero s
              | inr (inl s) => SpecFloat.S754_infinity s
              | inr (inr (inl _)) => SpecFloat.S754_nan
              | inr (inr (inr (s, m, e))) => SpecFloat.S754_finite s m e
              end) _).
  by intros [].
Defined.

#[global] Instance Key_eq_dec : EqDecision Key.
Proof. solve_decision. Defined.

#[global] Instance Key_countable : Countable Key.
Proof.
  refine (inj_countable'
    (fun k => match k with
              | KNone => inl tt
              | KInt z => inr (inl z)
              | KFloat f => inr (inr (inl f))
              | KStr s => inr (inr (inr s))
              end)
    (fun x => match x with
              | inl _ => KNone
              | inr (inl z) => KInt z
              | inr (inr (inl f)) => KFloat f
              | inr (inr (inr s)) => KStr s
              end) _).
  by intros [].
Defined.

(** The key of a float: the integer it equals, if any. *)
Definition float_key (f : float) : Key :=
  match FloatOps.Prim2SF f with
  | SpecFloat.S754_zero _ => KInt 0
  | SpecFloat.S754_finite s m e =>
      let sign := if s then -1 else 1 in
      if 0 <=? e then KInt (sign * Z.pos m * 2 ^ e)
      else if Z.pos m mod 2 ^ (- e) =? 0 then KInt (sign * (Z.pos m / 2 ^ (- e)))
      else KFloat (FloatOps.Prim2SF f)
  | sf => KFloat sf
  end.

(** [hash(v)]: [None] stands for the TypeError raised for a list or a dict,
    which are not hashable. *)
Definition key_of (v : Json) : option Key :=
  match v with
  | JNull => Some KNone
  | JBool b => Some (KInt (if b then 1 else 0))
  | JInt z => Some (KInt z)
  | JFloat f => Some (float_key f)
  | JString s => Some (KStr s)
  | JArray _ | JObject _ => None
  end.

(** ** [EoraRAGService] (src/rag_service.py) *)

(** One entry of a session's list (lines 86-90). *)
Record Turn : Type := {
  question : str;
  answer : str;
  timestamp : float
}.

(** One entry of the list [_extract_sources] returns. *)
Record Source : Type := {
  source_title : str;
  source_url : str;
  source_description : str
}.

(** [self.vectorstore] (the contents of its collection) and
    [self.sessions]. The session ids are annotated [str]; nothing checks
    it, and the dict is keyed by whatever the callers pass. *)
Record EoraRAGService : Type := {
  vectorstore : list Entry;
  sessions : gmap Key (list Turn)
}.

Definition nl : str := [10%N].

Definition context_part (i : Z) (result : SearchResult) : str :=
  nl ++ u "Источник " ++ str_of_int i ++ u ":" ++ nl
  ++ u "Название: " ++ title (metadata result) ++ nl
  ++ u "URL: " ++ url (metadata result) ++ nl
  ++ u "Описание: " ++ description (metadata result) ++ nl
  ++ u "Контент: " ++ content result ++ nl.

(** [enumerate(search_results, 1)] *)
Definition _build_context (search_results : list SearchResult) : str :=
  join nl (imap (fun i result => context_part (Z.of_nat i + 1) result) search_results).

Definition greeting_first : str := u "Поприветствуй клиента в первом сообщении".
Definition greeting_again : str := u "Не здоровайся повторно".

Definition _build_prompt (question context : str) (is_first_message : bool)
    (chat_history : str) : str :=
  let greeting_instruction :=
    if is_first_message then greeting_first else greeting_again in
  let history_context :=
    if truthy chat_history
    then nl ++ u "ИСТОРИЯ РАЗГОВОРА:" ++ nl ++ chat_history ++ nl
    else [] in
  u "Ты - ассистент компании EORA, которая занимается разработкой решений на основе искусственного интеллекта."
  ++ nl ++ nl
  ++ u "КОНТЕКСТ (информация о проектах EORA):" ++ nl
  ++ context ++ history_context ++ nl ++ nl
  ++ u "ТЕКУЩИЙ ВОПРОС КЛИЕНТА: " ++ question ++ nl ++ nl
  ++ u "ИНСТРУКЦИИ:" ++ nl
  ++ u "1. " ++ greeting_instruction ++ nl
  ++ u "2. Будь краток и конкретен - 2-3 абзаца максимум" ++ nl
  ++ u "3. Используй информацию из контекста и учитывай историю разговора" ++ nl
  ++ u "4. Приводи конкретные примеры проектов" ++ nl
  ++ u "5. Если нет релевантной информации, честно скажи об этом" ++ nl
  ++ u "6. Отвечай естественно и дружелюбно" ++ nl
  ++ u "7. Отвечай на русском языке" ++ nl ++ nl
  ++ u "ОТВЕТ:".

(** The local [messages] of [_get_session_history]:
    [self.sessions[session_id][-max_messages:]]. *)
Definition recent (sessions : gmap Key (list Turn)) (session_id : Key)
    (max_messages : Z) : list Turn :=
  match sessions !! session_id with
  | None => []
  | Some turns => slice_from turns (- max_messages)
  end.

Definition history_lines (msg : Turn) : list str :=
  [u "Клиент: " ++ question msg;
   u "Ассистент: " ++ slice_to (answer msg) 200 ++ u "..."].

Definition _get_session_history (sessions : gmap Key (list Turn))
    (session_id : Key) (max_messages : Z) : str :=
  match sessions !! session_id with
  | None => []
  | Some _ =>
      join nl (concat (map history_lines (recent sessions session_id max_messages)))
  end.

(** [_save_to_session]; [now] is the value [time.time()] returns. *)
Definition _save_to_session (now : float) (sessions : gmap Key (list Turn))
    (session_id : Key) (question answer : str) : gmap Key (list Turn) :=
  let sessions :=
    match sessions !! session_id with
    | None => <[session_id := []]> sessions
    | Some _ => sessions
    end in
  let turn := {| question := question; answer := answer; timestamp := now |} in
  let sessions := alter (fun turns => turns ++ [turn]) session_id sessions in
  match sessions !! session_id with
  | Some turns =>
      if 10 <? len turns
      then <[session_id := slice_from turns (-10)]> sessions
      else sessions
  | None => sessions
  end.

Definition cite (result : SearchResult) : Source :=
  {| source_title := title (metadata result);
     source_url := url (metadata result);
     source_description := description (metadata result) |}.

(** The loop of [_extract_sources] with its two accumulators. *)
Fixpoint extract_loop (search_results : list SearchResult)
    (sources : list Source) (seen_urls : gset str) : list Source :=
  match search_results with
  | [] => sources
  | result :: rest =>
      if decide (url (metadata result) ∈ seen_urls)
      then extract_loop rest sources seen_urls
      else extract_loop rest (sources ++ [cite result])
             ({[url (metadata result)]} ∪ seen_urls)
  end.

Definition _extract_sources (search_results : list SearchResult) : list Source :=
  extract_loop search_results [] ∅.

(** *** [get_answer]: state and exceptions

    A computation reads and writes the service object and may raise; writes
    made before an exception stay. [flags] is instrumentation: every value
    assigned to the local [is_first_message] (line 131) is recorded there. *)
Record Frame : Type := {
  self : EoraRAGService;
  flags : list bool
}.

Definition M (A : Type) : Type := Frame -> result A * Frame.

Definition ret {A} (a : A) : M A := fun fr => (Ok a, fr).

Definition bind {A B} (m : M A) (k : A -> M B) : M B :=
  fun fr =>
    match m fr with
    | (Ok a, fr') => k a fr'
    | (Raise e, fr') => (Raise e, fr')
    end.

Notation "'let!' x ':=' m 'in' k" := (bind m (fun x => k))
  (at level 10, x name, m at level 100, k at level 200).

(** A call that may raise and does not touch the service. *)
Definition call {A} (r : result A) : M A := fun fr => (r, fr).

Definition read {A} (f : EoraRAGService -> A) : M A :=
  fun fr => (Ok (f (self fr)), fr).

Definition record_flag (b : bool) : M unit :=
  fun fr => (Ok tt, {| self := self fr; flags := flags fr ++ [b] |}).

Definition save_to_session (w : World) (session_id : Key) (question answer : str) : M unit :=
  fun fr =>
    (Ok tt,
     {| self := {| vectorstore := vectorstore (self fr);
                   sessions := _save_to_session (time_time w) (sessions (self fr))
                                 session_id question answer |};
        flags := flags fr |}).

(** [try: body except Exception as e: handler(str(e))] *)
Definition try_except {A} (body : M A) (handler : str -> M A) : M A :=
  fun fr =>
    match body fr with
    | (Ok a, fr') => (Ok a, fr')
    | (Raise e, fr') => handler e fr'
    end.

Definition no_information : str :=
  u "Извините, я не нашел релевантной информации для ответа на ваш вопрос.".

Definition error_prefix : str :=
  u "Произошла ошибка при обработке вашего запроса: ".

(** [session_id not in self.sessions or len(self.sessions[session_id]) == 0] *)
Definition is_first_message (sessions : gmap Key (list Turn)) (session_id : Key) : bool :=
  match sessions !! session_id with
  | None => true
  | Some turns => len turns =? 0
  end.

Definition get_answer_body (w : World) (question : str) (session_id : Key)
    (max_sources : Z) : M (str * list Source) :=
  let! collection := read vectorstore in
  let! search_results := call (search w collection question max_sources) in
  if negb (truthy search_results) then
    let answer := no_information in
    let! _ := save_to_session w session_id question answer in
    ret (answer, [])
  else
    let context := _build_context search_results in
    let! first := read (fun s => is_first_message (sessions s) session_id) in
    let! _ := record_flag first in
    let! chat_history := read (fun s => _get_session_history (sessions s) session_id 4) in
    let prompt := _build_prompt question context first chat_history in
    let! text := call (generate_content w prompt) in
    let answer := strip text in
    let! _ := save_to_session w session_id question answer in
    let sources := _extract_sources search_results in
    ret (answer, sources).

Definition get_answer (w : World) (question : str) (session_id : Key)
    (max_sources : Z) : M (str * list Source) :=
  try_except (get_answer_body w question session_id max_sources)
    (fun e =>
       let error_answer := error_prefix ++ e in
       let! _ := save_to_session w session_id question error_answer in
       ret (error_answer, [])).

(** A request as the HTTP layer issues it, with the collaborators' behaviour
    during that request. *)
Record Request : Type := {
  req_world : World;
  req_question : str;
  req_session : Key;
  req_max_sources : Z
}.

(** What one request leaves behind: the reply, or the escaped exception,
    and the flags recorded during it. *)
Record Reply : Type := {
  reply : result (str * list Source);
  reply_flags : list bool
}.

(** Requests served one after another by the same service object. *)
Fixpoint serve (service : EoraRAGService) (requests : list Request)
    : list Reply * EoraRAGService :=
  match requests with
  | [] => ([], service)
  | r :: rest =>
      let '(out, fr) :=
        get_answer (req_world r) (req_question r) (req_session r)
          (req_max_sources r) {| self := service; flags := [] |} in
      let '(replies, service') := serve (self fr) rest in
      ({| reply := out; reply_flags := flags fr |} :: replies, service')
  end.

(** The service as [__init__] leaves it: an index and no session. *)
Definition fresh (collection : list Entry) : EoraRAGService :=
  {| vectorstore := collection; sessions := ∅ |}.

(** ** Vocabulary of the statements *)

(** The chunk appended for a window, and the chunks kept for a list of
    windows ([if chunk: chunks.append(chunk)]). *)
Definition cut (text : str) (w : Z * Z) : str :=
  strip (slice text (fst w) (snd w)).

Definition kept (cs : list str) : list str := filter (fun c => truthy c = true) cs.

(** The window's characters before trimming: [text[start:end]]. *)
Definition raw (text : str) (w : Z * Z) : str := slice text (fst w) (snd w).

(** Parameters for which every window ends beyond the next window's start,
    whether or not the search moved the end back. *)
Definition advancing (chunk_size overlap : Z) : Prop :=
  0 < chunk_size /\ overlap < chunk_size /\
  overlap <= Z.max (chunk_size / 2) (chunk_size - 100) + 1.

(** Whether [text[i]] is one of [.!?], for an index inside the text. *)
Definition terminal_at (text : str) (i : Z) : bool :=
  match text !! Z.to_nat i with
  | Some c => is_terminal c
  | None => false
  end.

(** The indices the backward search of a window visits: from the raw
    boundary [start + chunk_size] down to, but not including,
    [max(start + chunk_size//2, start + chunk_size - 100)]. *)
Definition in_search_span (chunk_size start k : Z) : Prop :=
  start + Z.max (chunk_size / 2) (chunk_size - 100) < k <= start + chunk_size.

(** [j] is the sentence end of the search span nearest to the raw boundary:
    the first one the backward search meets. *)
Definition nearest_sentence_end (text : str) (chunk_size start j : Z) : Prop :=
  in_search_span chunk_size start j /\ terminal_at text j = true /\
  forall k, j < k <= start + chunk_size -> terminal_at text k = false.

(** The windows of a 2500-character text for chunk_size 1000 and overlap 200
    when no end is moved: starts 0, 800, 1600, 2400. *)
Definition windows_2500 : list (Z * Z) :=
  [(0, 1000); (800, 1800); (1600, 2600); (2400, 3400)].

(** Concatenation of chunks with the first [overlap] characters of every
    chunk but the first removed. *)
Definition reassemble (overlap : Z) (chunks : list str) : str :=
  match chunks with
  | [] => []
  | c :: cs => c ++ concat (map (fun c' => slice_from c' overlap) cs)
  end.

(** The frame a request ends in: the session map after one
    [_save_to_session] with the given answer, the index untouched, [fl]
    appended to the recorded flags. *)
Definition frame_after (w : World) (fr : Frame) (question : str) (session_id : Key)
    (answer : str)
    (fl : list bool) : Frame :=
  {| self := {| vectorstore := vectorstore (self fr);
                sessions := _save_to_session (time_time w) (sessions (self fr))
                              session_id question answer |};
     flags := flags fr ++ fl |}.

(** The prompt [get_answer] sends for the results [rs] in frame [fr]. *)
Definition prompt_of (fr : Frame) (question : str) (session_id : Key)
    (rs : list SearchResult) : str :=
  _build_prompt question (_build_context rs)
    (is_first_message (sessions (self fr)) session_id)
    (_get_session_history (sessions (self fr)) session_id 4).

(** The text of a prompt around its four variable parts: the context, the
    history section, the question and the first instruction. *)
Definition prompt_text (context history_section question instruction : str) : str :=
  u "Ты - ассистент компании EORA, которая занимается разработкой решений на основе искусственного интеллекта."
  ++ nl ++ nl
  ++ u "КОНТЕКСТ (информация о проектах EORA):" ++ nl
  ++ context ++ history_section ++ nl ++ nl
  ++ u "ТЕКУЩИЙ ВОПРОС КЛИЕНТА: " ++ question ++ nl ++ nl
  ++ u "ИНСТРУКЦИИ:" ++ nl
  ++ u "1. " ++ instruction ++ nl
  ++ u "2. Будь краток и конкретен - 2-3 абзаца максимум" ++ nl
  ++ u "3. Используй информацию из контекста и учитывай историю разговора" ++ nl
  ++ u "4. Приводи конкретные примеры проектов" ++ nl
  ++ u "5. Если нет релевантной информации, честно скажи об этом" ++ nl
  ++ u "6. Отвечай естественно и дружелюбно" ++ nl
  ++ u "7. Отвечай на русском языке" ++ nl ++ nl
  ++ u "ОТВЕТ:".

(** The block of the context that carries the number [i], written for a
    citation and the content of a result. *)
Definition numbered_block (i : Z) (s : Source) (content : str) : str :=
  nl ++ u "Источник " ++ str_of_int i ++ u ":" ++ nl
  ++ u "Название: " ++ source_title s ++ nl
  ++ u "URL: " ++ source_url s ++ nl
  ++ u "Описание: " ++ source_description s ++ nl
  ++ u "Контент: " ++ content ++ nl.

(** The arguments of one call of [_save_to_session] and the clock reading
    during it. *)
Record Append : Type := {
  app_session : Key;
  app_question : str;
  app_answer : str;
  app_time : float
}.

(** The turn that call appends. *)
Definition turn_of (a : Append) : Turn :=
  {| question := app_question a; answer := app_answer a; timestamp := app_time a |}.

(** The calls [_save_to_session] made one after another. *)
Definition append_all (ops : list Append) (sessions : gmap Key (list Turn))
    : gmap Key (list Turn) :=
  fold_left
    (fun ss a => _save_to_session (app_time a) ss (app_session a)
                   (app_question a) (app_answer a))
    ops sessions.

(** All turns ever appended to a session, oldest first. *)
Definition appended (session_id : Key) (ops : list Append) : list Turn :=
  turn_of <$> filter (fun a => app_session a = session_id) ops.

(** The result at index [i] is the first one with its url. *)
Definition first_at (rs : list SearchResult) (i : nat) (r : SearchResult) : Prop :=
  rs !! i = Some r /\
  forall (j : nat) (r' : SearchResult),
    (j < i)%nat -> rs !! j = Some r' -> url (metadata r') <> url (metadata r).

(** Whether one of [earlier] was made on [session_id]. *)
Definition seen_before (earlier : list Request) (session_id : Key) : bool :=
  existsb (fun r => bool_decide (req_session r = session_id)) earlier.

(** The flags a request records, by its retrieval. *)
Definition expected_flags (collection : list Entry) (earlier : list Request)
    (r : Request) : list bool :=
  match search (req_world r) collection (req_question r) (req_max_sources r) with
  | Ok (_ :: _) => [negb (seen_before earlier (req_session r))]
  | _ => []
  end.

(** ** Sample collaborators and inputs *)

Definition zero_world : World :=
  {| embed_content := fun _ _ => Ok (replicate 768 PrimFloat.zero);
     collection_query := fun _ _ _ => Ok {| documents := [[]]; metadatas := [[]]; distances := [[]] |};
     generate_content := fun _ => Ok [];
     time_time := PrimFloat.zero |}.

Definition sample_meta : Metadata :=
  {| url := u "https://eora.ru/cases/a"; title := u "A"; description := u "d";
     chunk_index := 0; total_chunks := 1 |}.

(** Collaborators that all answer: one document is retrieved. *)
Definition hit_world : World :=
  {| embed_content := fun _ _ => Ok [PrimFloat.one; PrimFloat.zero];
     collection_query := fun _ _ _ =>
       Ok {| documents := [[u "doc"]]; metadatas := [[sample_meta]];
             distances := [[PrimFloat.zero]] |};
     generate_content := fun _ => Ok (u " answer ");
     time_time := PrimFloat.zero |}.

(** The embedding service is down: retrieval is empty. *)
Definition silent_world : World :=
  {| embed_content := fun _ _ => Raise (u "timeout");
     collection_query := collection_query hit_world;
     generate_content := generate_content hit_world;
     time_time := PrimFloat.zero |}.

Definition request (w : World) (question : str) (session_id : Key) : Request :=
  {| req_world := w; req_question := question; req_session := session_id;
     req_max_sources := 5 |}.

(** The result retrieved under [hit_world]. *)
Definition sample_result : SearchResult :=
  {| content := u "doc"; metadata := sample_meta;
     similarity := PrimFloat.sub PrimFloat.one PrimFloat.zero |}.

(** 2500 characters with one full stop, at index 950. *)
Definition one_full_stop : str :=
  replicate 950 97%N ++ [46%N] ++ replicate 1549 97%N.

Definition fifteen : list Append :=
  (fun i => {| app_session := KStr (u "s"); app_question := str_of_int i;
               app_answer := u "a"; app_time := PrimFloat.zero |}) <$> seqZ 1 15.

(** A service in which the session [s] has had its fifteen turns. *)
Definition talked : Frame :=
  {| self := {| vectorstore := []; sessions := append_all fifteen ∅ |};
     flags := [] |}.

(** ** [add_cases] (src/vectorstore.py, lines 101-151) *)

(** [d[key]] on a dictionary of strings, as [json.load] returns for the
    files the parser writes; [str] of a [KeyError] is the quoted key. *)
Definition getkey (d : gmap str str) (key : str) : result str :=
  match d !! key with
  | Some v => Ok v
  | None => Raise (u "'" ++ key ++ u "'")
  end.

(** The four lists [add_cases] fills and its counter [chunk_id]. *)
Record Staged : Type := {
  staged_documents : list str;
  staged_embeddings : list (list float);
  staged_metadatas : list Metadata;
  staged_ids : list str;
  staged_chunk_id : Z
}.

Definition nothing_staged : Staged :=
  {| staged_documents := []; staged_embeddings := []; staged_metadatas := [];
     staged_ids := []; staged_chunk_id := 0 |}.

(** The collaborators of one ingestion run: reading and decoding the file
    ([open] and [json.load]), the embedding service at its n-th call of the
    run, and [collection.add], which answers with the contents the
    collection has afterwards. *)
Record Ingest : Type := {
  read_cases : str -> result (list (gmap str str));
  embed_nth : nat -> World;
  collection_add :
    list Entry -> list str -> list (list float) -> list Metadata -> list str ->
    result unit * list Entry
}.

(** [f"case_{len(documents)}_{chunk_id}"] *)
Definition case_id (n chunk_id : Z) : str :=
  u "case_" ++ str_of_int n ++ u "_" ++ str_of_int chunk_id.

(** The inner loop [for i, chunk in enumerate(chunks)], from index [i] on;
    [calls] counts the embedding calls made so far. *)
Fixpoint add_chunks (ing : Ingest) (case : gmap str str) (total : Z) (i : Z)
    (chunks : list str) (st : Staged) (calls : nat) : result (Staged * nat) :=
  match chunks with
  | [] => Ok (st, calls)
  | chunk :: rest =>
      match _get_embedding (embed_nth ing calls) chunk (u "retrieval_document") with
      | None => add_chunks ing case total (i + 1) rest st (S calls)
      | Some embedding =>
          let documents := staged_documents st ++ [chunk] in
          let embeddings := staged_embeddings st ++ [embedding] in
          let* case_url := getkey case (u "url") in
          let* case_title := getkey case (u "title") in
          let* case_description := getkey case (u "description") in
          let metadatas :=
            staged_metadatas st
            ++ [{| url := case_url; title := case_title;
                   description := case_description;
                   chunk_index := i; total_chunks := total |}] in
          let ids := staged_ids st ++ [case_id (len documents) (staged_chunk_id st)] in
          add_chunks ing case total (i + 1) rest
            {| staged_documents := documents; staged_embeddings := embeddings;
               staged_metadatas := metadatas; staged_ids := ids;
               staged_chunk_id := staged_chunk_id st + 1 |}
            (S calls)
      end
  end.

(** The outer loop [for case in cases]. [None]: the chunker ran out of
    fuel. *)
Fixpoint add_loop (fuel : nat) (ing : Ingest) (cases : list (gmap str str))
    (st : Staged) (calls : nat) : option (result (Staged * nat)) :=
  match cases with
  | [] => Some (Ok (st, calls))
  | case :: rest =>
      match getkey case (u "title") with
      | Raise e => Some (Raise e)
      | Ok _ =>
          match getkey case (u "full_text") with
          | Raise e => Some (Raise e)
          | Ok full_text =>
              match _chunk_text fuel full_text 1000 200 with
              | None => None
              | Some (Raise e) => Some (Raise e)
              | Some (Ok chunks) =>
                  match add_chunks ing case (len chunks) 0 chunks st calls with
                  | Raise e => Some (Raise e)
                  | Ok (st', calls') => add_loop fuel ing rest st' calls'
                  end
              end
          end
      end
  end.

(** [add_cases]: the value returned or the exception raised, and the
    contents of the collection afterwards. *)
Definition add_cases (fuel : nat) (ing : Ingest) (collection : list Entry)
    (cases_file : str) : option (result Z * list Entry) :=
  match read_cases ing cases_file with
  | Raise e => Some (Raise e, collection)
  | Ok cases =>
      match add_loop fuel ing cases nothing_staged 0 with
      | None => None
      | Some (Raise e) => Some (Raise e, collection)
      | Some (Ok (st, _)) =>
          match collection_add ing collection (staged_documents st)
                  (staged_embeddings st) (staged_metadatas st) (staged_ids st) with
          | (Raise e, collection') => Some (Raise e, collection')
          | (Ok _, collection') => Some (Ok (len (staged_documents st)), collection')
          end
      end
  end.

(** The ids of a run that stores [n] chunks. *)
Definition expected_ids (n : Z) : list str :=
  (fun k => case_id (k + 1) k) <$> seqZ 0 n.

(** A stored document and its metadata come from chunk [chunk_index] of one
    of the cases. *)
Definition stored_from (fuel : nat) (cases : list (gmap str str))
    (doc : str) (meta : Metadata) : Prop :=
  exists (case : gmap str str) (full_text : str) (chunks : list str),
    case ∈ cases /\
    case !! u "full_text" = Some full_text /\
    _chunk_text fuel full_text 1000 200 = Some (Ok chunks) /\
    case !! u "url" = Some (url meta) /\
    case !! u "title" = Some (title meta) /\
    case !! u "description" = Some (description meta) /\
    total_chunks meta = len chunks /\
    0 <= chunk_index meta < total_chunks meta /\
    chunks !! Z.to_nat (chunk_index meta) = Some doc.

(** A decimal digit. *)
Definition digit (c : N) : Prop := (48 <= c <= 57)%N.

(** The four lists grow together, [chunk_id] counts the documents, the ids
    are those of the positions. *)
Definition well_staged (st : Staged) : Prop :=
  length (staged_embeddings st) = length (staged_documents st) /\
  length (staged_metadatas st) = length (staged_documents st) /\
  staged_chunk_id st = len (staged_documents st) /\
  staged_ids st = expected_ids (len (staged_documents st)).

(** A case as the parser writes it. *)
Definition sample_case (full_text : str) : gmap str str :=
  {[ u "url" := u "https://eora.ru/cases/a"; u "title" := u "A";
     u "description" := u "d"; u "full_text" := full_text ]}.

(** A case without a title. *)
Definition untitled_case : gmap str str :=
  {[ u "url" := u "https://eora.ru/cases/b"; u "full_text" := u "Text." ]}.


(** An index that accepts every batch and appends it. *)
Definition store_entries (collection : list Entry) (documents : list str)
    (embeddings : list (list float)) (metadatas : list Metadata) (ids : list str)
    : result unit * list Entry :=
  (Ok tt,
   collection
   ++ zip_with (fun a b => {| entry_id := fst a; entry_document := snd a;
                              entry_embedding := fst b; entry_metadata := snd b |})
        (zip ids documents) (zip embeddings metadatas)).

Definition sample_ingest (w : World) (cases : list (gmap str str)) : Ingest :=
  {| read_cases := fun _ => Ok cases;
     embed_nth := fun _ => w;
     collection_add := store_entries |}.

Definition two_cases : list (gmap str str) :=
  [sample_case (u "Text one."); sample_case (u "Text two.")].

(** What the index holds after [two_cases] were added to an empty one. *)
Definition two_stored : list Entry :=
  match add_cases 1 (sample_ingest hit_world two_cases) [] (u "cases.json") with
  | Some (_, collection) => collection
  | None => []
  end.

(** What the replies of a sequence of requests told the clients, as
    appends: the question asked, the answer returned, the clock reading. *)
Definition told (requests : list Request) (replies : list Reply) : list Append :=
  zip_with
    (fun r rep =>
       {| app_session := req_session r;
          app_question := req_question r;
          app_answer := match reply rep with
                        | Ok (answer, _) => answer
                        | Raise _ => []
                        end;
          app_time := time_time (req_world r) |})
    requests replies.

(** The urls of a list of results. *)
Definition urls_of (rs : list SearchResult) : list str :=
  (fun r => url (metadata r)) <$> rs.

(** ** [ask_question] (src/app.py, lines 38-86) *)

(** What the handler reads of the HTTP request: the outcome of
    [request.get_json()] (an exception for a body that cannot be decoded,
    else the decoded value, of any JSON type) and [request.remote_addr]. *)
Record HttpRequest : Type := {
  get_json : result Json;
  remote_addr : option str
}.

(** The JSON object handed to [jsonify]; the session_id is echoed as it
    was received. *)
Inductive Body : Type :=
  | ErrorBody (error : str)
  | AnswerBody (question answer : str) (sources : list Source) (session_id : Json).

Record Response : Type := {
  status : Z;
  body : Body
}.

(** [not data or 'question' not in data] *)
Definition no_question (data : Json) : result bool :=
  if negb (json_truthy data) then Ok true
  else
    let* found := json_contains (u "question") data in
    Ok (negb found).

(** [request.remote_addr or 'default'] *)
Definition default_session (addr : option str) : str :=
  match addr with
  | Some a => if truthy a then a else u "default"
  | None => u "default"
  end.

(** [data.get('session_id', request.remote_addr or 'default')] *)
Definition session_of (data : Json) (addr : option str) : result Json :=
  json_get data (u "session_id") (JString (default_session addr)).

(** [rag_service.get_answer(question, session_id)] with the value of the
    body. For a list or a dict every path of [get_answer] ends in the
    TypeError of [session_id not in self.sessions]: [search] runs first and
    writes nothing, then line 124 or line 131 raises inside the [try], and
    the handler's own [_save_to_session] (line 155) raises again, outside of
    it; the model is not called. *)
Definition get_answer_of (w : World) (question : str) (session_id : Json)
    (max_sources : Z) : M (str * list Source) :=
  match key_of session_id with
  | Some key => get_answer w question key max_sources
  | None => call (Raise TypeError)
  end.

Definition respond (status : Z) (body : Body) : M Response :=
  ret {| status := status; body := body |}.

(** The [try] block of the handler. *)
Definition ask_question_try (w : World) (req : HttpRequest) : M Response :=
  let! data := call (get_json req) in
  let! absent := call (no_question data) in
  if absent then respond 400 (ErrorBody (u "Вопрос не предоставлен"))
  else
    let! value := call (json_getitem data (u "question")) in
    let! question := call (json_strip value) in
    if negb (truthy question) then
      respond 400 (ErrorBody (u "Вопрос не может быть пустым"))
    else if 1000 <? len question then
      respond 400 (ErrorBody (u "Вопрос слишком длинный (максимум 1000 символов)"))
    else
      let! session_id := call (session_of data (remote_addr req)) in
      let! reply := get_answer_of w question session_id 5 in
      respond 200 (AnswerBody question (fst reply) (snd reply) session_id).

Definition internal_error : Response :=
  {| status := 500; body := ErrorBody (u "Произошла внутренняя ошибка сервера") |}.

(** The handler of POST /api/ask on the service object of the module:
    [except Exception] turns every exception into the response 500. *)
Definition ask_question (w : World) (req : HttpRequest) (service : EoraRAGService)
    : Response * EoraRAGService :=
  match ask_question_try w req {| self := service; flags := [] |} with
  | (Ok response, fr) => (response, self fr)
  | (Raise _, fr) => (internal_error, self fr)
  end.

(** One HTTP request with the collaborators' behaviour while it is handled. *)
Record Call : Type := {
  call_world : World;
  call_request : HttpRequest
}.

(** Requests handled one after another. *)
Fixpoint handle (service : EoraRAGService) (calls : list Call)
    : list Response * EoraRAGService :=
  match calls with
  | [] => ([], service)
  | c :: rest =>
      let '(response, service1) := ask_question (call_world c) (call_request c) service in
      let '(responses, service2) := handle service1 rest in
      (response :: responses, service2)
  end.

(** A question as the handler lets it through: trimmed, not empty, at most
    1000 characters. *)
Definition admissible (question : str) : Prop :=
  question <> [] /\ strip question = question /\ len question <= 1000.

(** ** [_extract_content] (src/parser.py, lines 95-112)

    The page is represented by the texts [element.get_text(separator=' ',
    strip=True)] of the elements the two loops visit, in that order, and
    [str.lower] is a parameter. *)

Definition unwanted_words : list str :=
  [u "cookie"; u "email"; u "телефон"; u "отправить"; u "обязательное поле"].

(** The condition of lines 103-105. *)
Definition worth_keeping (lower : str -> str) (text : str) : bool :=
  (30 <? len text)
  && negb (existsb (fun word => contains word (lower text)) unwanted_words)
  && negb (startswith (u "Пожалуйста") text).

(** [list(dict.fromkeys(l))]: the first occurrence of every element stays. *)
Fixpoint fromkeys (seen : list str) (l : list str) : list str :=
  match l with
  | [] => []
  | x :: l' =>
      if decide (x ∈ seen) then fromkeys seen l'
      else x :: fromkeys (x :: seen) l'
  end.

(** [l.sort(key=len, reverse=True)]: longest first, equal lengths in their
    original order. *)
Fixpoint insert_by_len (x : str) (l : list str) : list str :=
  match l with
  | [] => [x]
  | y :: l' =>
      if len y <=? len x then x :: y :: l' else y :: insert_by_len x l'
  end.

Fixpoint sort_by_len (l : list str) : list str :=
  match l with
  | [] => []
  | x :: l' => insert_by_len x (sort_by_len l')
  end.

(** [unique_parts[:5]] *)
Definition selected_parts (lower : str -> str) (texts : list str) : list str :=
  slice_to (sort_by_len (fromkeys [] (filter (fun t => worth_keeping lower t = true) texts))) 5.

Definition _extract_content (lower : str -> str) (texts : list str) : str :=
  join (nl ++ nl) (selected_parts lower texts).

(** Bodies of POST /api/ask: a blank question, a proper one, and a proper
    one sent with a list as session_id. *)
Definition blank_request : HttpRequest :=
  {| get_json := Ok (JObject {[ u "question" := JString (u "   ") ]});
     remote_addr := Some (u "10.0.0.1") |}.

Definition good_body : gmap str Json :=
  {[ u "question" := JString (u "  What do you do?  ") ]}.

Definition good_request : HttpRequest :=
  {| get_json := Ok (JObject good_body);
     remote_addr := Some (u "10.0.0.1") |}.

Definition list_session_request : HttpRequest :=
  {| get_json := Ok (JObject {[ u "question" := JString (u "hi");
                                u "session_id" := JArray [] ]});
     remote_addr := Some (u "10.0.0.1") |}.

Definition null_session_body : gmap str Json :=
  {[ u "question" := JString (u "hi"); u "session_id" := JNull ]}.

Definition null_session_request : HttpRequest :=
  {| get_json := Ok (JObject null_session_body);
     remote_addr := Some (u "10.0.0.1") |}.

(** Texts of a page: two long blocks, one of them twice, a short one and
    one about cookies. *)
Definition sample_texts : list str :=
  [u "EORA builds a chat bot that invites candidates to interviews.";
   u "Short text.";
   u "We use cookie files to make this web site work better for you.";
   u "EORA builds a chat bot that invites candidates to interviews.";
   u "The bot answers the questions of candidates around the clock, every day."].

(** * Properties *)

Example chunk_small :
  _chunk_text 10 (u "ab. cd! efgh") 6 2 = Some (Ok [u "ab. cd!"; u "d! efg"; u "fgh"]).
Proof. vm_compute. reflexivity. Qed.

Example u_cyrillic : u "Клиент: " = [1050; 1083; 1080; 1077; 1085; 1090; 58; 32]%N.
Proof. vm_compute. reflexivity. Qed.

(** ** Indexing and slicing *)

Lemma len_nonneg {A} (l : list A) : 0 <= len l.
Proof. unfold len. lia. Qed.

Lemma getitem_in_range {A} (msg : str) (l : list A) (i : Z) :
  0 <= i < len l ->
  exists x, getitem msg l i = Ok x /\ l !! Z.to_nat i = Some x.
Proof.
  intros Hi. unfold getitem.
  destruct (Z.ltb_spec i 0) as [?|_]; [lia|].
  destruct (Z.ltb_spec i 0) as [?|_]; [lia|].
  destruct (Z.leb_spec (len l) i) as [?|_]; [lia|]. simpl.
  destruct (l !! Z.to_nat i) as [x|] eqn:E; [eauto|].
  apply lookup_ge_None in E. unfold len in Hi. lia.
Qed.

Lemma slice_inside {A} (l : list A) (lo hi : Z) :
  0 <= lo -> 0 <= hi ->
  slice l lo hi = take (Z.to_nat (Z.min hi (len l) - lo)) (drop (Z.to_nat lo) l).
Proof.
  intros Hlo Hhi. unfold slice, slice_bound.
  destruct (Z.ltb_spec lo 0) as [?|_]; [lia|].
  destruct (Z.ltb_spec hi 0) as [?|_]; [lia|].
  destruct (Z.le_gt_cases lo (len l)) as [H|H].
  - rewrite (Z.min_l lo) by lia. reflexivity.
  - rewrite (Z.min_r lo) by lia.
    rewrite !drop_ge by (unfold len in *; lia).
    by rewrite !take_nil.
Qed.

Lemma length_slice_le {A} (l : list A) (lo hi : Z) :
  0 <= lo -> 0 <= hi -> len (slice l lo hi) <= Z.max 0 (hi - lo).
Proof.
  intros Hlo Hhi. rewrite slice_inside by done.
  unfold len. rewrite length_take, length_drop. lia.
Qed.

Lemma slice_from_inside {A} (l : list A) (lo : Z) :
  0 <= lo -> slice_from l lo = drop (Z.to_nat lo) l.
Proof.
  intros Hlo. unfold slice_from, slice_bound.
  destruct (Z.ltb_spec lo 0) as [?|_]; [lia|].
  destruct (Z.le_gt_cases lo (len l)) as [H|H].
  - by rewrite Z.min_l by lia.
  - rewrite Z.min_r by lia. rewrite !drop_ge; unfold len in *; [done|lia..].
Qed.

(** ** Whitespace stripping only shortens *)

Lemma length_lstrip (s : str) : (length (lstrip s) <= length s)%nat.
Proof.
  induction s as [|c s IH]; simpl; [lia|].
  destruct (isspace c); simpl; lia.
Qed.

Lemma length_strip (s : str) : (length (strip s) <= length s)%nat.
Proof.
  unfold strip, rstrip. rewrite length_reverse.
  etrans; [apply length_lstrip|]. rewrite length_reverse. apply length_lstrip.
Qed.

Lemma lstrip_head (s : str) (c : N) :
  head (lstrip s) = Some c -> isspace c = false.
Proof.
  induction s as [|x s IH]; simpl; [done|].
  destruct (isspace x) eqn:E; [done|]. simpl. by intros [= <-].
Qed.

Lemma lstrip_fixed (s : str) :
  (forall c, head s = Some c -> isspace c = false) -> lstrip s = s.
Proof.
  destruct s as [|x s]; [done|]. intros H. simpl. by rewrite (H x).
Qed.

Lemma lstrip_nil (s : str) : lstrip s = [] -> Forall (fun c => isspace c = true) s.
Proof.
  induction s as [|x s IH]; simpl; [constructor|].
  destruct (isspace x) eqn:E; [|done]. intros H. constructor; auto.
Qed.

Lemma lstrip_suffix (s : str) : lstrip s `suffix_of` s.
Proof.
  induction s as [|x s IH]; simpl; [done|].
  destruct (isspace x); [by apply suffix_cons_r|done].
Qed.

Lemma rstrip_last (s : str) (c : N) :
  last (rstrip s) = Some c -> isspace c = false.
Proof. unfold rstrip. rewrite last_reverse. apply lstrip_head. Qed.

Lemma rstrip_prefix (s : str) : rstrip s `prefix_of` s.
Proof.
  unfold rstrip. pose proof (lstrip_suffix (reverse s)) as H.
  apply suffix_prefix_reverse in H. by rewrite reverse_involutive in H.
Qed.

Lemma rstrip_fixed (s : str) :
  (forall c, last s = Some c -> isspace c = false) -> rstrip s = s.
Proof.
  intros H. unfold rstrip. rewrite lstrip_fixed; [apply reverse_involutive|].
  intros c Hc. apply H. pose proof (last_reverse (reverse s)) as E.
  rewrite reverse_involutive in E. by rewrite E.
Qed.

(** A non-empty result of [strip] neither starts nor ends with whitespace. *)
Lemma strip_ends (s : str) :
  (forall c, head (strip s) = Some c -> isspace c = false) /\
  (forall c, last (strip s) = Some c -> isspace c = false).
Proof.
  split; [|apply rstrip_last].
  intros c Hc. unfold strip in Hc.
  destruct (rstrip_prefix (lstrip s)) as [k Hk].
  destruct (rstrip (lstrip s)) as [|x r] eqn:E; [done|].
  simpl in Hc. injection Hc as ->.
  apply (lstrip_head s). by rewrite Hk.
Qed.

Lemma strip_fixed (s : str) : strip (strip s) = strip s.
Proof.
  destruct (strip_ends s) as [Hh Hl].
  unfold strip at 1. rewrite (lstrip_fixed (strip s)) by done.
  by apply rstrip_fixed.
Qed.

Lemma lstrip_last (s : str) (c : N) :
  last s = Some c -> isspace c = false -> last (lstrip s) = Some c.
Proof.
  intros Hl Hc. induction s as [|x s IH]; [done|]. simpl.
  destruct (isspace x) eqn:E; [|done].
  destruct s as [|y s]; [|by apply IH].
  simpl in Hl. injection Hl as ->. congruence.
Qed.

(** A sentence end, or any other character that is not whitespace, at the
    end of a string stays there. *)
Lemma strip_last (s : str) (c : N) :
  last s = Some c -> isspace c = false -> last (strip s) = Some c.
Proof.
  intros Hl Hc. pose proof (lstrip_last s c Hl Hc) as H.
  unfold strip. rewrite rstrip_fixed; [done|].
  intros c' Hc'. congruence.
Qed.

Lemma is_terminal_not_space (c : N) : is_terminal c = true -> isspace c = false.
Proof.
  unfold is_terminal. intros H.
  apply orb_true_iff in H as [H|H]; [apply orb_true_iff in H as [H|H]|];
    apply N.eqb_eq in H; by subst c.
Qed.

(** ** The backward search for a sentence end *)

Lemma scan_back_spec (text : str) (n : nat) : forall i : Z,
  Z.of_nat n <= i + 1 -> i < len text ->
  exists r, scan_back text i n = Ok r /\
    (r = None \/ exists j, r = Some (j + 1) /\ i - Z.of_nat n < j <= i).
Proof.
  induction n as [|n IH]; intros i Hlo Hhi; simpl.
  - eauto.
  - destruct (getitem_in_range IndexError_str text i) as (c & -> & _); [lia|].
    simpl. destruct (is_terminal c).
    + eexists; split; [done|]. right. exists i. split; [done|lia].
    + destruct (IH (i - 1)) as (r & -> & Hr); [lia..|].
      eexists; split; [done|].
      destruct Hr as [->|(j & -> & Hj)]; [by left|].
      right. exists j. split; [done|lia].
Qed.

(** Where the window ends: never an exception for a start inside the text,
    at most one character beyond the raw boundary, and past the lower end of
    the search span when a sentence end was found. *)
Lemma window_end_spec (text : str) (chunk_size start : Z) :
  0 < chunk_size -> 0 <= start ->
  exists e, window_end text chunk_size start = Ok e /\
    e <= start + chunk_size + 1 /\
    (e = start + chunk_size \/
     (start + Z.max (chunk_size / 2) (chunk_size - 100) + 2 <= e /\ e <= len text)).
Proof.
  intros Hcs Hstart. unfold window_end.
  destruct (Z.ltb_spec (start + chunk_size) (len text)) as [Hlt|Hge].
  - assert (0 <= chunk_size / 2) by (apply Z.div_pos; lia).
    assert (chunk_size / 2 < chunk_size) by (apply Z.div_lt; lia).
    set (stop := Z.max (start + chunk_size / 2) (start + chunk_size - 100)).
    destruct (scan_back_spec text (Z.to_nat (start + chunk_size - stop))
                (start + chunk_size)) as (r & -> & Hr); [lia..|].
    simpl. eexists; split; [done|].
    destruct Hr as [->|(j & -> & Hj)]; [lia|].
    subst stop. split; [lia|]. right. lia.
  - eexists; split; [done|]. lia.
Qed.

(** ** The chunking loop under advancing parameters *)

Lemma advancing_step (chunk_size overlap start e : Z) :
  advancing chunk_size overlap ->
  e = start + chunk_size \/
    start + Z.max (chunk_size / 2) (chunk_size - 100) + 2 <= e ->
  start < e - overlap /\ start < e.
Proof.
  intros (Hcs & Hov & Hov') He.
  assert (0 <= chunk_size / 2) by (apply Z.div_pos; lia).
  lia.
Qed.

Lemma cover_last (text : str) (start overlap e : Z) :
  0 <= start -> 0 <= overlap -> len text <= e - overlap ->
  slice_from (slice text start e) overlap = drop (Z.to_nat (start + overlap)) text.
Proof.
  intros Hs Ho He. pose proof (len_nonneg text) as Hlen.
  rewrite slice_inside, slice_from_inside by lia.
  rewrite Z.min_r by lia.
  rewrite take_ge by (rewrite length_drop; unfold len; lia).
  rewrite drop_drop. f_equal. lia.
Qed.

Lemma cover_step (text : str) (start overlap e : Z) :
  0 <= start -> 0 <= overlap -> start + overlap <= e ->
  slice_from (slice text start e) overlap ++ drop (Z.to_nat e) text
  = drop (Z.to_nat (start + overlap)) text.
Proof.
  intros Hs Ho He. rewrite slice_inside, slice_from_inside by lia.
  destruct (Z.le_gt_cases e (len text)) as [Hle|Hgt].
  - rewrite Z.min_l by lia.
    replace (Z.to_nat e) with (Z.to_nat start + Z.to_nat (e - start))%nat by lia.
    rewrite <- drop_drop, drop_take_drop by lia.
    rewrite drop_drop. f_equal. lia.
  - rewrite Z.min_r by lia.
    rewrite take_ge by (rewrite length_drop; unfold len; lia).
    rewrite (drop_ge text (Z.to_nat e)) by (unfold len in Hgt; lia).
    rewrite app_nil_r, drop_drop. f_equal. lia.
Qed.

(** With advancing parameters the loop stops within [len text - start]
    iterations of a start inside the text; its windows are well formed and,
    for a non-negative overlap, tile the rest of the text. *)
Lemma chunk_windows_spec (text : str) (chunk_size overlap : Z) :
  advancing chunk_size overlap ->
  forall (fuel : nat) (start : Z),
    0 <= start < len text -> len text - start <= Z.of_nat fuel ->
    exists e rest,
      chunk_windows fuel text chunk_size overlap start = Some ((start, e) :: rest) /\
      Forall (fun w => 0 <= fst w /\ fst w < snd w <= fst w + chunk_size + 1)
        ((start, e) :: rest) /\
      start + overlap < e /\
      (0 <= overlap ->
       concat (map (fun w => slice_from (raw text w) overlap) ((start, e) :: rest))
       = drop (Z.to_nat (start + overlap)) text).
Proof.
  intros Hadv. induction fuel as [|fuel IH]; intros start Hs Hfuel; [lia|].
  simpl. destruct (Z.ltb_spec start (len text)) as [_|?]; [|lia].
  destruct (window_end_spec text chunk_size start) as (e & -> & Hup & He);
    [apply Hadv|lia|].
  destruct (advancing_step chunk_size overlap start e Hadv) as [Hnext Hpos];
    [destruct He as [?|[? ?]]; [by left|by right]|].
  destruct (Z.leb_spec (len text) (e - overlap)) as [Hdone|Hmore].
  - exists e, []. split; [done|]. split; [|split; [lia|]].
    + constructor; [simpl; lia|constructor].
    + intros Ho. simpl. rewrite app_nil_r. unfold raw. simpl.
      by apply cover_last; lia.
  - destruct (IH (e - overlap)) as (e' & rest & -> & Hall & Hnext' & Hcov); [lia..|].
    exists e, ((e - overlap, e') :: rest). split; [done|].
    split; [|split; [lia|]].
    + constructor; [simpl; lia|done].
    + intros Ho. rewrite (Hcov Ho).
      unfold raw at 1. simpl fst; simpl snd.
      replace (e - overlap + overlap) with e by lia.
      apply cover_step; lia.
Qed.

(** The chunks returned are the trimmed windows that are not empty. *)
Lemma chunk_loop_windows (text : str) (chunk_size overlap : Z) :
  forall (fuel : nat) (start : Z) (ws : list (Z * Z)) (chunks : list str),
    chunk_windows fuel text chunk_size overlap start = Some ws ->
    chunk_loop fuel text chunk_size overlap start chunks
    = Some (Ok (chunks ++ kept (map (cut text) ws))).
Proof.
  induction fuel as [|fuel IH]; intros start ws chunks; simpl; [done|].
  destruct (start <? len text); [|intros [= <-]; by rewrite app_nil_r].
  destruct (window_end text chunk_size start) as [e|msg]; [|done].
  assert (Hkeep : forall tl,
    (if truthy (strip (slice text start e))
     then chunks ++ [strip (slice text start e)] else chunks) ++ kept tl
    = chunks ++ kept (cut text (start, e) :: tl)).
  { intros tl. unfold kept, cut. simpl fst; simpl snd.
    rewrite filter_cons. destruct (truthy (strip (slice text start e))) eqn:E.
    - rewrite decide_True by done. by rewrite <- app_assoc.
    - rewrite decide_False by congruence. done. }
  destruct (len text <=? e - overlap).
  - intros [= <-]. f_equal. f_equal. simpl map. rewrite <- (Hkeep []).
    unfold kept. by rewrite filter_nil, app_nil_r.
  - destruct (chunk_windows fuel text chunk_size overlap (e - overlap)) as [ws'|] eqn:E;
      [|done].
    intros [= <-]. rewrite (IH _ _ _ E). f_equal. f_equal. simpl map. apply Hkeep.
Qed.

Lemma chunk_windows_more_fuel (text : str) (chunk_size overlap : Z) :
  forall (fuel fuel' : nat) (start : Z) (ws : list (Z * Z)),
    (fuel <= fuel')%nat ->
    chunk_windows fuel text chunk_size overlap start = Some ws ->
    chunk_windows fuel' text chunk_size overlap start = Some ws.
Proof.
  induction fuel as [|fuel IH]; intros fuel' start ws Hle; simpl; [done|].
  destruct fuel' as [|fuel']; [lia|]. simpl.
  destruct (start <? len text); [|done].
  destruct (window_end text chunk_size start) as [e|msg]; [|done].
  destruct (len text <=? e - overlap); [done|].
  destruct (chunk_windows fuel text chunk_size overlap (e - overlap)) as [ws'|] eqn:E;
    [|done].
  intros [= <-]. by rewrite (IH fuel' _ ws') by (done || lia).
Qed.

(** Termination under advancing parameters: some list of chunks is returned
    for every amount of fuel from [len text] on. *)
Lemma chunk_text_terminates (text : str) (chunk_size overlap : Z) :
  advancing chunk_size overlap ->
  exists chunks, forall fuel : nat,
    len text <= Z.of_nat fuel ->
    _chunk_text fuel text chunk_size overlap = Some (Ok chunks).
Proof.
  intros Hadv. unfold _chunk_text.
  destruct (Z.leb_spec (len text) chunk_size) as [Hshort|Hlong]; [by eexists|].
  destruct (chunk_windows_spec text chunk_size overlap Hadv (length text) 0)
    as (e & rest & Hws & _); [destruct Hadv; lia|unfold len; lia|].
  exists ([] ++ kept (map (cut text) ((0, e) :: rest))). intros fuel Hfuel.
  apply chunk_loop_windows.
  eapply chunk_windows_more_fuel; [|exact Hws]. unfold len in Hfuel. lia.
Qed.

(** The default parameters of [_chunk_text], the only ones [add_cases] uses,
    are advancing. *)
Example defaults_advance : advancing 1000 200.
Proof. unfold advancing. vm_compute. intuition discriminate. Qed.

Lemma chunk_text_terminates_witness :
  exists chunks, forall fuel : nat,
    len (u "ab. cd! efgh") <= Z.of_nat fuel ->
    _chunk_text fuel (u "ab. cd! efgh") 6 2 = Some (Ok chunks).
Proof. apply chunk_text_terminates. unfold advancing. vm_compute. intuition discriminate. Defined.

(** ** Non-advancing windows *)

Lemma chunk_loop_unfold (fuel : nat) (text : str) (chunk_size overlap start e : Z)
    (chunks : list str) :
  (start <? len text) = true ->
  window_end text chunk_size start = Ok e ->
  (len text <=? e - overlap) = false ->
  chunk_loop (S fuel) text chunk_size overlap start chunks
  = chunk_loop fuel text chunk_size overlap (e - overlap)
      (if truthy (strip (slice text start e))
       then chunks ++ [strip (slice text start e)] else chunks).
Proof. intros H1 H2 H3. simpl. by rewrite H1, H2, H3. Qed.

(** A state the loop returns to cannot be left: no amount of fuel suffices. *)
Lemma chunk_loop_stuck (text : str) (chunk_size overlap start e : Z) :
  (start <? len text) = true ->
  window_end text chunk_size start = Ok e ->
  e - overlap = start ->
  forall (fuel : nat) (chunks : list str),
    chunk_loop fuel text chunk_size overlap start chunks = None.
Proof.
  intros H1 H2 H3. induction fuel as [|fuel IH]; intros chunks; [done|].
  rewrite (chunk_loop_unfold fuel text chunk_size overlap start e); [|done..|].
  - rewrite H3. apply IH.
  - rewrite H3. apply Z.leb_gt. by apply Z.ltb_lt.
Qed.

(** C1: with chunk_size = 10 and overlap = 9 = chunk_size - 1, on the
    13-character text [aaaaaa.aaaaaa] the first window is cut after the full
    stop at index 6, the next start is 7 - 9 = -2, and from start -2 the same
    full stop is found again: the window start never advances and
    [_chunk_text] returns for no amount of fuel. *)
Theorem chunk_text_overlap_minus_one_diverges :
  forall fuel : nat, _chunk_text fuel (u "aaaaaa.aaaaaa") 10 9 = None.
Proof.
  intros [|fuel]; [done|].
  change (_chunk_text (S fuel) (u "aaaaaa.aaaaaa") 10 9)
    with (chunk_loop (S fuel) (u "aaaaaa.aaaaaa") 10 9 0 []).
  rewrite (chunk_loop_unfold fuel _ 10 9 0 7) by (vm_compute; reflexivity).
  apply (chunk_loop_stuck _ 10 9 (-2) 7); vm_compute; reflexivity.
Qed.

(** The same with overlap = chunk_size and no sentence end at all: the
    window start stays at 0 and a chunk is appended on every iteration. *)
Lemma chunk_text_overlap_equal_diverges :
  forall fuel : nat, _chunk_text fuel (u "aaa") 2 2 = None.
Proof.
  intros fuel.
  change (_chunk_text fuel (u "aaa") 2 2) with (chunk_loop fuel (u "aaa") 2 2 0 []).
  apply (chunk_loop_stuck _ 2 2 0 2); vm_compute; reflexivity.
Qed.

(** ** Coverage *)

(** C3 as stated fails: trimming removes the leading blank of the first
    window, so the chunks of [" abc"] (chunk_size 2, no overlap) are ["a"] and
    ["bc"], whose concatenation is not the text. *)
Lemma chunk_coverage_lost_whitespace :
  _chunk_text 4 (u " abc") 2 0 = Some (Ok [u "a"; u "bc"]) /\
  chunk_windows 4 (u " abc") 2 0 0 = Some [(0, 2); (2, 4)] /\
  2 < len (u " abc") /\
  reassemble 0 [u "a"; u "bc"] <> u " abc".
Proof. vm_compute. repeat split; try reflexivity. discriminate. Qed.

(** C3, amended: for advancing parameters with a non-negative overlap and a
    text longer than chunk_size, the loop cuts windows [text[start:end]] that
    reassemble to the text exactly once the first [overlap] characters of
    every window after the first are removed; the chunks returned are those
    windows trimmed of surrounding whitespace, the empty ones dropped, and
    each has at most chunk_size + 1 characters. *)
Theorem chunk_coverage (text : str) (chunk_size overlap : Z) :
  advancing chunk_size overlap -> 0 <= overlap -> chunk_size < len text ->
  exists ws : list (Z * Z),
    (forall fuel : nat, len text <= Z.of_nat fuel ->
       chunk_windows fuel text chunk_size overlap 0 = Some ws /\
       _chunk_text fuel text chunk_size overlap
       = Some (Ok (kept (map (cut text) ws)))) /\
    reassemble overlap (map (raw text) ws) = text /\
    Forall (fun c => len c <= chunk_size + 1) (kept (map (cut text) ws)).
Proof.
  intros Hadv Hov Hlong. pose proof Hadv as (Hcs & Hlt & _).
  destruct (chunk_windows_spec text chunk_size overlap Hadv (length text) 0)
    as (e & rest & Hws & Hall & Hnext & Hcov); [lia|unfold len; lia|].
  exists ((0, e) :: rest). split; [|split].
  - intros fuel Hfuel.
    assert (Hws' : chunk_windows fuel text chunk_size overlap 0 = Some ((0, e) :: rest)).
    { eapply chunk_windows_more_fuel; [|exact Hws]. unfold len in Hfuel. lia. }
    split; [done|]. unfold _chunk_text.
    destruct (Z.leb_spec (len text) chunk_size) as [?|_]; [lia|].
    by rewrite (chunk_loop_windows _ _ _ _ _ _ [] Hws').
  - specialize (Hcov Hov). rewrite map_cons, concat_cons in Hcov.
    unfold reassemble. rewrite map_cons, map_map.
    rewrite <- (take_drop (Z.to_nat overlap) (raw text (0, e))), <- app_assoc.
    rewrite <- (slice_from_inside (raw text (0, e))) by done.
    rewrite Hcov. unfold raw. simpl fst; simpl snd.
    rewrite slice_inside by lia. rewrite drop_0, take_take.
    rewrite Nat.min_l by lia. apply take_drop.
  - apply Forall_forall. intros c Hc. unfold kept in Hc.
    apply list_elem_of_filter in Hc as [_ Hc].
    apply list_elem_of_fmap in Hc as (w & -> & Hw).
    rewrite Forall_forall in Hall. destruct (Hall w Hw) as (H0 & H1 & H2).
    unfold cut. pose proof (length_strip (slice text (fst w) (snd w))) as Hs.
    pose proof (length_slice_le text (fst w) (snd w)) as Hl.
    unfold len in *. lia.
Qed.

Lemma chunk_coverage_witness :
  exists ws : list (Z * Z),
    (forall fuel : nat, len (u "ab. cd! efgh") <= Z.of_nat fuel ->
       chunk_windows fuel (u "ab. cd! efgh") 6 2 0 = Some ws /\
       _chunk_text fuel (u "ab. cd! efgh") 6 2
       = Some (Ok (kept (map (cut (u "ab. cd! efgh")) ws)))) /\
    reassemble 2 (map (raw (u "ab. cd! efgh")) ws) = u "ab. cd! efgh" /\
    Forall (fun c => len c <= 6 + 1) (kept (map (cut (u "ab. cd! efgh")) ws)).
Proof.
  apply chunk_coverage.
  - unfold advancing. vm_compute. intuition discriminate.
  - lia.
  - vm_compute. reflexivity.
Defined.

(** ** Sentence alignment of a window end *)

Lemma getitem_terminal (text : str) (i : Z) :
  0 <= i < len text ->
  exists c, getitem IndexError_str text i = Ok c /\ is_terminal c = terminal_at text i.
Proof.
  intros Hi. destruct (getitem_in_range IndexError_str text i Hi) as (c & Hc & Hl).
  exists c. split; [done|]. unfold terminal_at. by rewrite Hl.
Qed.

Lemma scan_back_none (text : str) (n : nat) : forall i : Z,
  Z.of_nat n <= i + 1 -> i < len text ->
  (forall k, i - Z.of_nat n < k <= i -> terminal_at text k = false) ->
  scan_back text i n = Ok None.
Proof.
  induction n as [|n IH]; intros i Hlo Hhi Hno; simpl; [done|].
  destruct (getitem_terminal text i) as (c & -> & Hc); [lia|]. simpl.
  rewrite Hc, Hno by lia. apply IH; [lia..|]. intros k Hk. apply Hno. lia.
Qed.

Lemma scan_back_found (text : str) (n : nat) : forall i j : Z,
  Z.of_nat n <= i + 1 -> i < len text ->
  i - Z.of_nat n < j <= i ->
  terminal_at text j = true ->
  (forall k, j < k <= i -> terminal_at text k = false) ->
  scan_back text i n = Ok (Some (j + 1)).
Proof.
  induction n as [|n IH]; intros i j Hlo Hhi Hj Hyes Hno; simpl; [lia|].
  destruct (getitem_terminal text i) as (c & -> & Hc); [lia|]. simpl.
  rewrite Hc. destruct (Z.eq_dec j i) as [->|Hne].
  - by rewrite Hyes.
  - rewrite Hno by lia. apply IH; [lia..|done|]. intros k Hk. apply Hno. lia.
Qed.

(** No sentence end in the search span: the window is cut at the raw
    boundary. *)
Lemma window_end_raw (text : str) (chunk_size start : Z) :
  0 < chunk_size -> 0 <= start ->
  (forall k, start + Z.max (chunk_size / 2) (chunk_size - 100) < k <= start + chunk_size ->
             terminal_at text k = false) ->
  window_end text chunk_size start = Ok (start + chunk_size).
Proof.
  intros Hcs Hstart Hno. unfold window_end.
  destruct (Z.ltb_spec (start + chunk_size) (len text)) as [Hlt|Hge]; [|done].
  assert (0 <= chunk_size / 2) by (apply Z.div_pos; lia).
  rewrite scan_back_none; [done|lia..|].
  intros k Hk. apply Hno. lia.
Qed.

(** A sentence end in the search span: the window is cut just after the one
    nearest to the raw boundary. *)
Lemma window_end_found (text : str) (chunk_size start j : Z) :
  0 < chunk_size -> 0 <= start -> start + chunk_size < len text ->
  start + Z.max (chunk_size / 2) (chunk_size - 100) < j <= start + chunk_size ->
  terminal_at text j = true ->
  (forall k, j < k <= start + chunk_size -> terminal_at text k = false) ->
  window_end text chunk_size start = Ok (j + 1).
Proof.
  intros Hcs Hstart Hlen Hj Hyes Hno. unfold window_end.
  destruct (Z.ltb_spec (start + chunk_size) (len text)) as [_|?]; [|lia].
  assert (0 <= chunk_size / 2) by (apply Z.div_pos; lia).
  rewrite (scan_back_found text _ _ j); [done|lia..|done|done].
Qed.

Lemma chunk_windows_unfold (fuel : nat) (text : str) (chunk_size overlap start e : Z) :
  start < len text ->
  window_end text chunk_size start = Ok e ->
  chunk_windows (S fuel) text chunk_size overlap start
  = if len text <=? e - overlap then Some [(start, e)]
    else cons (start, e) <$> chunk_windows fuel text chunk_size overlap (e - overlap).
Proof.
  intros H1 H2. simpl. rewrite H2.
  by destruct (Z.ltb_spec start (len text)) as [_|?]; [|lia].
Qed.

Lemma chunk_windows_2500 (text : str) (fuel : nat) :
  len text = 2500 ->
  (forall i, 900 < i <= 1000 \/ 1700 < i <= 1800 -> terminal_at text i = false) ->
  (4 <= fuel)%nat ->
  chunk_windows fuel text 1000 200 0 = Some windows_2500.
Proof.
  intros Hlen Hno Hfuel.
  do 4 (destruct fuel as [|fuel]; [lia|]). clear Hfuel.
  rewrite (chunk_windows_unfold _ text 1000 200 0 1000);
    [|lia|apply (window_end_raw text 1000 0); [lia..|intros k Hk; apply Hno; lia]].
  rewrite Hlen. change (2500 <=? 1000 - 200) with false. cbv iota.
  rewrite (chunk_windows_unfold _ text 1000 200 (1000 - 200) 1800);
    [|lia|apply (window_end_raw text 1000 800); [lia..|intros k Hk; apply Hno; lia]].
  rewrite Hlen. change (2500 <=? 1800 - 200) with false. cbv iota.
  rewrite (chunk_windows_unfold _ text 1000 200 (1800 - 200) 2600);
    [|lia|unfold window_end; rewrite Hlen; reflexivity].
  rewrite Hlen. change (2500 <=? 2600 - 200) with false. cbv iota.
  rewrite (chunk_windows_unfold _ text 1000 200 (2600 - 200) 3400);
    [|lia|unfold window_end; rewrite Hlen; reflexivity].
  rewrite Hlen. reflexivity.
Qed.

Lemma kept_all (cs : list str) :
  Forall (fun c => truthy c = true) cs -> kept cs = cs.
Proof.
  unfold kept. induction 1 as [|c cs Hc _ IH]; [done|].
  rewrite filter_cons, decide_True by done. by rewrite IH.
Qed.

(** C9 as stated fails: a window that holds only whitespace yields no chunk.
    A 2500-character text without any sentence end whose last 100 characters
    are blank gives 3 chunks, not 4. *)
Lemma chunk_2500_blank_tail :
  let text := replicate 2400 97%N ++ replicate 100 32%N in
  len text = 2500 /\
  forallb (fun c => negb (is_terminal c)) text = true /\
  exists chunks,
    _chunk_text 4 text 1000 200 = Some (Ok chunks) /\ length chunks = 3%nat.
Proof.
  split; [vm_compute; reflexivity|]. split; [vm_compute; reflexivity|].
  eexists. split; [vm_compute; reflexivity|]. reflexivity.
Qed.

Lemma chunk_windows_ends (text : str) (chunk_size overlap : Z) :
  forall (fuel : nat) (start : Z) (ws : list (Z * Z)),
    chunk_windows fuel text chunk_size overlap start = Some ws ->
    Forall (fun w => window_end text chunk_size (fst w) = Ok (snd w)) ws.
Proof.
  induction fuel as [|fuel IH]; intros start ws; simpl; [done|].
  destruct (start <? len text); [|intros [= <-]; constructor].
  destruct (window_end text chunk_size start) as [e|msg] eqn:He; [|done].
  destruct (len text <=? e - overlap).
  - intros [= <-]. by repeat constructor.
  - destruct (chunk_windows fuel text chunk_size overlap (e - overlap)) as [ws'|] eqn:E;
      [|done].
    intros [= <-]. constructor; [done|]. by eapply IH.
Qed.

Lemma last_slice (text : str) (start j : Z) :
  0 <= start <= j -> j < len text ->
  last (slice text start (j + 1)) = text !! Z.to_nat j.
Proof.
  intros Hs Hj. rewrite slice_inside by lia. rewrite Z.min_l by lia.
  rewrite last_lookup, length_take, length_drop.
  unfold len in Hj.
  rewrite lookup_take_lt by lia. rewrite lookup_drop. f_equal. lia.
Qed.

(** C9, amended: for a 2500-character text with no sentence end in the two
    search spans (indices 901..1000 and 1701..1800), chunk_size 1000 and
    overlap 200 cut exactly the 4 windows starting at 0, 800, 1600 and 2400;
    the chunks returned are those windows trimmed, without the ones that
    become empty, so there are at most 4 of them, and exactly 4 when every
    window holds a non-blank character. And on any text longer than
    chunk_size, for advancing parameters, every window [_chunk_text] cuts
    whose search span holds a sentence end is cut just after the one nearest
    to the raw boundary [start + chunk_size]: its chunk is returned and ends
    with that character; a window without a sentence end in its span, or
    whose raw boundary is not inside the text, is cut at the raw boundary. *)
Theorem chunk_2500 (text text' : str) (chunk_size overlap : Z) :
  len text = 2500 ->
  (forall i, 900 < i <= 1000 \/ 1700 < i <= 1800 -> terminal_at text i = false) ->
  advancing chunk_size overlap -> chunk_size < len text' ->
  (forall fuel : nat, (4 <= fuel)%nat ->
     chunk_windows fuel text 1000 200 0 = Some windows_2500 /\
     _chunk_text fuel text 1000 200
     = Some (Ok (kept (map (cut text) windows_2500)))) /\
  (length (kept (map (cut text) windows_2500)) <= 4)%nat /\
  (Forall (fun w => truthy (cut text w) = true) windows_2500 ->
   length (kept (map (cut text) windows_2500)) = 4%nat) /\
  exists (ws : list (Z * Z)) (chunks : list str),
    (forall fuel : nat, len text' <= Z.of_nat fuel ->
       chunk_windows fuel text' chunk_size overlap 0 = Some ws /\
       _chunk_text fuel text' chunk_size overlap = Some (Ok chunks)) /\
    chunks = kept (map (cut text') ws) /\
    Forall (fun w =>
      (forall j : Z,
         fst w + chunk_size < len text' ->
         nearest_sentence_end text' chunk_size (fst w) j ->
         snd w = j + 1 /\ cut text' w ∈ chunks /\
         last (cut text' w) = text' !! Z.to_nat j) /\
      (len text' <= fst w + chunk_size \/
       (forall k, in_search_span chunk_size (fst w) k -> terminal_at text' k = false) ->
       snd w = fst w + chunk_size)) ws.
Proof.
  intros Hlen Hno Hadv Hlong.
  split; [|split; [|split]].
  - intros fuel Hfuel.
    pose proof (chunk_windows_2500 text fuel Hlen Hno Hfuel) as Hws.
    split; [done|]. unfold _chunk_text. rewrite Hlen.
    change (2500 <=? 1000) with false. cbv iota.
    by rewrite (chunk_loop_windows _ _ _ _ _ _ [] Hws).
  - unfold kept. etrans; [apply length_filter|]. by rewrite length_map.
  - intros Hall. rewrite kept_all; [by rewrite length_map|].
    by apply Forall_fmap.
  - pose proof Hadv as (Hcs & _ & _).
    assert (0 <= chunk_size / 2) by (apply Z.div_pos; lia).
    destruct (chunk_windows_spec text' chunk_size overlap Hadv (length text') 0)
      as (e & rest & Hws & Hall & _ & _); [lia|unfold len; lia|].
    pose proof (chunk_windows_ends _ _ _ _ _ _ Hws) as Hends.
    set (ws := (0, e) :: rest) in *.
    exists ws, (kept (map (cut text') ws)). split; [|split; [done|]].
    + intros fuel Hfuel.
      assert (Hws' : chunk_windows fuel text' chunk_size overlap 0 = Some ws).
      { eapply chunk_windows_more_fuel; [|exact Hws]. unfold len in Hfuel. lia. }
      split; [done|]. unfold _chunk_text.
      destruct (Z.leb_spec (len text') chunk_size) as [?|_]; [lia|].
      by rewrite (chunk_loop_windows _ _ _ _ _ _ [] Hws').
    + rewrite Forall_forall in Hall, Hends. apply Forall_forall. intros w Hw.
      destruct (Hall w Hw) as (H0 & _). specialize (Hends w Hw). split.
      * intros j Hin (Hspan & Hyes & Hnone). unfold in_search_span in Hspan.
        rewrite (window_end_found text' chunk_size (fst w) j) in Hends by (done || lia).
        injection Hends as Hend.
        unfold terminal_at in Hyes.
        destruct (text' !! Z.to_nat j) as [c|] eqn:Hc; [|done].
        assert (Hlast : last (cut text' w) = Some c).
        { unfold cut. rewrite <- Hend. apply strip_last.
          - rewrite last_slice by lia. done.
          - by apply is_terminal_not_space. }
        split; [done|]. split; [|done].
        unfold kept. apply list_elem_of_filter. split.
        -- by destruct (cut text' w).
        -- apply list_elem_of_fmap. by exists w.
      * intros [Hout|Hnone].
        -- unfold window_end in Hends.
           destruct (Z.ltb_spec (fst w + chunk_size) (len text')) as [?|_]; [lia|].
           by injection Hends.
        -- rewrite (window_end_raw text' chunk_size (fst w)) in Hends by (done || lia).
           by injection Hends.
Qed.

Lemma chunk_2500_witness :
  let text := replicate 2500 97%N in
  let text' := one_full_stop in
  (forall fuel : nat, (4 <= fuel)%nat ->
     chunk_windows fuel text 1000 200 0 = Some windows_2500 /\
     _chunk_text fuel text 1000 200
     = Some (Ok (kept (map (cut text) windows_2500)))) /\
  (length (kept (map (cut text) windows_2500)) <= 4)%nat /\
  (Forall (fun w => truthy (cut text w) = true) windows_2500 ->
   length (kept (map (cut text) windows_2500)) = 4%nat) /\
  exists (ws : list (Z * Z)) (chunks : list str),
    (forall fuel : nat, len text' <= Z.of_nat fuel ->
       chunk_windows fuel text' 1000 200 0 = Some ws /\
       _chunk_text fuel text' 1000 200 = Some (Ok chunks)) /\
    chunks = kept (map (cut text') ws) /\
    Forall (fun w =>
      (forall j : Z,
         fst w + 1000 < len text' ->
         nearest_sentence_end text' 1000 (fst w) j ->
         snd w = j + 1 /\ cut text' w ∈ chunks /\
         last (cut text' w) = text' !! Z.to_nat j) /\
      (len text' <= fst w + 1000 \/
       (forall k, in_search_span 1000 (fst w) k -> terminal_at text' k = false) ->
       snd w = fst w + 1000)) ws.
Proof.
  intros text text'. apply (chunk_2500 text text' 1000 200).
  - vm_compute. reflexivity.
  - intros i Hi. unfold terminal_at, text.
    destruct (replicate 2500 97%N !! Z.to_nat i) as [c|] eqn:E; [|done].
    apply lookup_replicate in E as [-> _]. reflexivity.
  - exact defaults_advance.
  - vm_compute. reflexivity.
Defined.

(** The text with a full stop at index 950: the first window is cut at 951,
    just after it, and the later windows follow from there. *)
Example chunk_2500_full_stop :
  len one_full_stop = 2500 /\
  nearest_sentence_end one_full_stop 1000 0 950 /\
  chunk_windows 4 one_full_stop 1000 200 0
  = Some [(0, 951); (751, 1751); (1551, 2551); (2351, 3351)] /\
  (exists chunks, _chunk_text 4 one_full_stop 1000 200 = Some (Ok chunks) /\
     (length <$> chunks) = [951; 1000; 949; 149]%nat).
Proof.
  split; [vm_compute; reflexivity|]. split; [|split].
  - split; [unfold in_search_span; vm_compute; intuition discriminate|].
    split; [vm_compute; reflexivity|].
    intros k Hk. unfold terminal_at, one_full_stop.
    destruct (_ !! Z.to_nat k) as [c|] eqn:E; [|done].
    rewrite lookup_app_r in E by (rewrite length_replicate; lia).
    rewrite length_replicate in E.
    rewrite lookup_app_r in E by (simpl; lia).
    apply lookup_replicate in E as [-> _]. reflexivity.
  - vm_compute. reflexivity.
  - eexists. split; vm_compute; reflexivity.
Qed.

(** ** Embedding *)

Lemma norm_zero_vector (n : nat) :
  np_linalg_norm (replicate n PrimFloat.zero) = PrimFloat.zero.
Proof.
  unfold np_linalg_norm.
  assert (H : fold_left (fun acc x => PrimFloat.add acc (PrimFloat.mul x x))
                (replicate n PrimFloat.zero) PrimFloat.zero = PrimFloat.zero).
  { induction n as [|n IH]; [done|]. simpl. exact IH. }
  rewrite H. reflexivity.
Qed.

(** C4: when the embedding service answers with a zero vector, the norm is
    0 and every component is 0 / 0: [_get_embedding] returns a list of NaN
    instead of the failure value [None]. *)
Theorem get_embedding_zero_vector (w : World) (text task_type : str) (n : nat) :
  embed_content w text task_type = Ok (replicate n PrimFloat.zero) ->
  _get_embedding w text task_type = Some (replicate n PrimFloat.nan).
Proof.
  intros H. unfold _get_embedding. rewrite H, norm_zero_vector. f_equal.
  clear H. induction n as [|n IH]; [done|].
  change (PrimFloat.nan :: map (fun x => PrimFloat.div x PrimFloat.zero)
            (replicate n PrimFloat.zero)
          = PrimFloat.nan :: replicate n PrimFloat.nan).
  f_equal. exact IH.
Qed.

Lemma get_embedding_zero_vector_witness :
  _get_embedding zero_world (u "text") (u "retrieval_document")
  = Some (replicate 768 PrimFloat.nan).
Proof. apply get_embedding_zero_vector. reflexivity. Defined.


(** ** Search *)

Lemma getitem_lookup {A} (msg : str) (l : list A) (i : nat) (x : A) :
  l !! i = Some x -> getitem msg l (Z.of_nat i) = Ok x.
Proof.
  intros H. pose proof (lookup_lt_Some _ _ _ H) as Hlt.
  destruct (getitem_in_range msg l (Z.of_nat i)) as (y & -> & Hy);
    [unfold len; lia|].
  rewrite Nat2Z.id in Hy. congruence.
Qed.

Lemma for_each_ok {A B} (f : A -> result B) (l : list A) :
  (forall a, a ∈ l -> exists b, f a = Ok b) ->
  exists bs, for_each f l = Ok bs /\ Forall2 (fun a b => f a = Ok b) l bs.
Proof.
  induction l as [|a l IH]; intros Hall; simpl.
  - exists []. by split.
  - destruct (Hall a) as [b Hb]; [by left|].
    destruct IH as (bs & Hbs & HF); [intros a' Ha'; apply Hall; by right|].
    exists (b :: bs). rewrite Hb, Hbs. split; [done|by constructor].
Qed.

Lemma search_row_ok (results : QueryResult) (docs : list str)
    (metas : list Metadata) (dists : list float) (i : nat)
    (doc : str) (meta : Metadata) (dist : float) :
  documents results !! 0%nat = Some docs ->
  metadatas results !! 0%nat = Some metas ->
  distances results !! 0%nat = Some dists ->
  docs !! i = Some doc -> metas !! i = Some meta -> dists !! i = Some dist ->
  search_row results (Z.of_nat i)
  = Ok {| content := doc; metadata := meta;
          similarity := PrimFloat.sub PrimFloat.one dist |}.
Proof.
  intros Hd Hm Hx Hdoc Hmeta Hdist. unfold search_row.
  rewrite (getitem_lookup _ _ 0 _ Hd), (getitem_lookup _ _ 0 _ Hm),
    (getitem_lookup _ _ 0 _ Hx). simpl.
  rewrite (getitem_lookup _ _ i _ Hdoc). simpl.
  rewrite (getitem_lookup _ _ i _ Hmeta). simpl.
  by rewrite (getitem_lookup _ _ i _ Hdist).
Qed.

(** C8: a failing embedding call makes [search] return the empty list, not
    an exception; with an embedding and an answer of the index whose three
    lists have the same length, the i-th result is the i-th document with its
    metadata and similarity [1 - distance], in the order the index gave. *)
Theorem search_contract (w : World) (collection : list Entry) (query : str)
    (n_results : Z) :
  (forall e, embed_content w query (u "retrieval_query") = Raise e ->
     search w collection query n_results = Ok []) /\
  (forall query_embedding results docs metas dists,
     _get_embedding w query (u "retrieval_query") = Some query_embedding ->
     collection_query w collection [query_embedding] n_results = Ok results ->
     documents results !! 0%nat = Some docs ->
     metadatas results !! 0%nat = Some metas ->
     distances results !! 0%nat = Some dists ->
     length metas = length docs -> length dists = length docs ->
     exists found,
       search w collection query n_results = Ok found /\
       length found = length docs /\
       forall (i : nat) doc meta dist,
         docs !! i = Some doc -> metas !! i = Some meta -> dists !! i = Some dist ->
         found !! i = Some {| content := doc; metadata := meta;
                              similarity := PrimFloat.sub PrimFloat.one dist |}).
Proof.
  split.
  - intros e He. unfold search, _get_embedding. by rewrite He.
  - intros qe results docs metas dists Hqe Hq Hd Hm Hx Hlm Hlx.
    unfold search. rewrite Hqe, Hq. simpl.
    rewrite (getitem_lookup _ _ 0 _ Hd). simpl.
    destruct (for_each_ok (search_row results) (seqZ 0 (len docs))) as (found & -> & HF).
    { intros a Ha. apply elem_of_seqZ in Ha.
      assert (Hi : (Z.to_nat a < length docs)%nat) by (unfold len in Ha; lia).
      destruct (lookup_lt_is_Some_2 docs _ Hi) as [doc Hdoc].
      destruct (lookup_lt_is_Some_2 metas (Z.to_nat a)) as [meta Hmeta]; [lia|].
      destruct (lookup_lt_is_Some_2 dists (Z.to_nat a)) as [dist Hdist]; [lia|].
      eexists. rewrite <- (Z2Nat.id a) by lia.
      by apply (search_row_ok results docs metas dists). }
    exists found. split; [done|].
    pose proof (Forall2_length _ _ _ HF) as Hlen.
    rewrite length_seqZ in Hlen. unfold len in Hlen.
    split; [lia|]. intros i doc meta dist Hdoc Hmeta Hdist.
    pose proof (lookup_lt_Some _ _ _ Hdoc) as Hi.
    destruct (lookup_lt_is_Some_2 found i) as [r Hr]; [lia|].
    rewrite Hr. f_equal.
    assert (Hseq : seqZ 0 (len docs) !! i = Some (Z.of_nat i)).
    { rewrite lookup_seqZ. split; [lia|]. unfold len. lia. }
    pose proof (Forall2_lookup_lr _ _ _ _ _ _ HF Hseq Hr) as Hrow.
    cbv beta in Hrow. rewrite (search_row_ok results docs metas dists i doc meta dist) in Hrow by done.
    congruence.
Qed.

Lemma search_contract_witness :
  search silent_world [] (u "q") 5 = Ok [] /\
  exists found,
    search hit_world [] (u "q") 5 = Ok found /\
    length found = 1%nat /\
    found !! 0%nat = Some {| content := u "doc"; metadata := sample_meta;
                             similarity := PrimFloat.sub PrimFloat.one PrimFloat.zero |}.
Proof.
  split.
  - apply (proj1 (search_contract silent_world [] (u "q") 5) (u "timeout")).
    reflexivity.
  - destruct (proj2 (search_contract hit_world [] (u "q") 5)
                [PrimFloat.one; PrimFloat.zero]
                {| documents := [[u "doc"]]; metadatas := [[sample_meta]];
                   distances := [[PrimFloat.zero]] |}
                [u "doc"] [sample_meta] [PrimFloat.zero])
      as (found & Hs & Hl & Hi); try reflexivity.
    exists found. split; [exact Hs|]. split; [exact Hl|].
    apply Hi; reflexivity.
Defined.

(** ** Session memory *)

(** [turns[-10:]], taken only when there are more than 10 turns, keeps the
    last 10 in every case. *)
Lemma slice_from_last10 {A} (l : list A) :
  (if 10 <? len l then slice_from l (-10) else l) = drop (length l - 10) l.
Proof.
  destruct (Z.ltb_spec 10 (len l)) as [Hgt|Hle].
  - unfold slice_from, slice_bound. simpl. f_equal. unfold len in *. lia.
  - replace (length l - 10)%nat with 0%nat by (unfold len in Hle; lia). done.
Qed.

Lemma save_lookup (now : float) (sessions : gmap Key (list Turn))
    (session_id : Key) (question answer : str) :
  _save_to_session now sessions session_id question answer !! session_id
  = Some (let turns := default [] (sessions !! session_id)
                       ++ [{| question := question; answer := answer; timestamp := now |}] in
          drop (length turns - 10) turns).
Proof.
  unfold _save_to_session.
  set (turn := {| question := question; answer := answer; timestamp := now |}).
  set (s0 := match sessions !! session_id with
             | None => <[session_id := []]> sessions
             | Some _ => sessions
             end).
  assert (H0 : s0 !! session_id = Some (default [] (sessions !! session_id))).
  { subst s0. destruct (sessions !! session_id) eqn:E; [done|].
    by rewrite lookup_insert_eq. }
  rewrite lookup_alter_eq, H0. simpl.
  rewrite <- slice_from_last10.
  destruct (10 <? len (default [] (sessions !! session_id) ++ [turn]));
    [by rewrite lookup_insert_eq|].
  by rewrite lookup_alter_eq, H0.
Qed.

Lemma save_lookup_other (now : float) (sessions : gmap Key (list Turn))
    (session_id : Key) (question answer : str) (other : Key) :
  other <> session_id ->
  _save_to_session now sessions session_id question answer !! other
  = sessions !! other.
Proof.
  intros Hne. unfold _save_to_session.
  set (s0 := match sessions !! session_id with
             | None => <[session_id := []]> sessions
             | Some _ => sessions
             end).
  assert (H0 : s0 !! other = sessions !! other).
  { subst s0. destruct (sessions !! session_id); [done|].
    by rewrite lookup_insert_ne. }
  destruct (alter _ session_id s0 !! session_id) as [turns|].
  - destruct (10 <? len turns).
    + by rewrite lookup_insert_ne, lookup_alter_ne.
    + by rewrite lookup_alter_ne.
  - by rewrite lookup_alter_ne.
Qed.

(** ** One request *)

(** Every path of [get_answer], by what the collaborators do. *)
Lemma get_answer_run (w : World) (question : str) (session_id : Key) (max_sources : Z)
    (fr : Frame) :
  exists (answer : str) (sources : list Source) (fl : list bool),
    get_answer w question session_id max_sources fr
    = (Ok (answer, sources), frame_after w fr question session_id answer fl) /\
    match search w (vectorstore (self fr)) question max_sources with
    | Raise e => answer = error_prefix ++ e /\ sources = [] /\ fl = []
    | Ok [] => answer = no_information /\ sources = [] /\ fl = []
    | Ok (r :: rs) =>
        fl = [is_first_message (sessions (self fr)) session_id] /\
        match generate_content w (prompt_of fr question session_id (r :: rs)) with
        | Raise e => answer = error_prefix ++ e /\ sources = []
        | Ok text => answer = strip text /\ sources = _extract_sources (r :: rs)
        end
    end.
Proof.
  unfold get_answer, try_except, get_answer_body, bind, read, call.
  destruct fr as [[coll ss] fl0]. simpl.
  destruct (search w coll question max_sources) as [[|r rs]|e]; simpl.
  - exists no_information, [], []. unfold frame_after. simpl.
    by rewrite app_nil_r.
  - unfold prompt_of. simpl.
    destruct (generate_content w _) as [text|e]; simpl.
    + by exists (strip text), (_extract_sources (r :: rs)),
        [is_first_message ss session_id].
    + by exists (error_prefix ++ e), [], [is_first_message ss session_id].
  - exists (error_prefix ++ e), [], []. unfold frame_after. simpl.
    by rewrite app_nil_r.
Qed.

Lemma save_lookup_snoc (now : float) (sessions : gmap Key (list Turn))
    (session_id : Key) (question answer : str) :
  _save_to_session now sessions session_id question answer !! session_id
  = Some (let old := default [] (sessions !! session_id) in
          drop (length old - 9) old
          ++ [{| question := question; answer := answer; timestamp := now |}]).
Proof.
  rewrite save_lookup. cbv zeta. f_equal.
  generalize (default [] (sessions !! session_id)). intros old.
  rewrite length_app. simpl length.
  rewrite drop_app_le by lia. f_equal. f_equal. lia.
Qed.

(** C2: whatever the retrieval and the generation do (results, no result,
    an exception), [get_answer] returns an (answer, sources) pair and no
    exception, having run [_save_to_session] once on the entry state: the
    session's list ends with the new turn, preceded by at most the 9 latest
    earlier turns. On a failure the answer is the error prefix followed by
    the exception's description, the sources are empty. *)
Theorem get_answer_always_answers (w : World) (question : str) (session_id : Key)
    (max_sources : Z) (fr : Frame) :
  exists (answer : str) (sources : list Source) (fr' : Frame),
    get_answer w question session_id max_sources fr = (Ok (answer, sources), fr') /\
    sessions (self fr')
    = _save_to_session (time_time w) (sessions (self fr)) session_id question answer /\
    sessions (self fr') !! session_id
    = Some (let old := default [] (sessions (self fr) !! session_id) in
            drop (length old - 9) old
            ++ [{| question := question; answer := answer;
                   timestamp := time_time w |}]) /\
    match search w (vectorstore (self fr)) question max_sources with
    | Raise e => answer = error_prefix ++ e /\ sources = []
    | Ok [] => answer = no_information /\ sources = []
    | Ok (r :: rs) =>
        match generate_content w (prompt_of fr question session_id (r :: rs)) with
        | Raise e => answer = error_prefix ++ e /\ sources = []
        | Ok text => answer = strip text /\ sources = _extract_sources (r :: rs)
        end
    end.
Proof.
  destruct (get_answer_run w question session_id max_sources fr)
    as (answer & sources & fl & Hrun & Hcases).
  exists answer, sources, (frame_after w fr question session_id answer fl).
  split; [done|]. split; [done|]. split; [apply save_lookup_snoc|].
  destruct (search w (vectorstore (self fr)) question max_sources) as [[|r rs]|e].
  - tauto.
  - by destruct Hcases as [_ Hgen].
  - tauto.
Qed.

(** C10: a request on one session leaves the turn list of every other
    session and the contents of the vector index as they were, on every
    path. *)
Theorem get_answer_frame (w : World) (question : str) (session_id other : Key)
    (max_sources : Z) (fr : Frame) :
  other <> session_id ->
  sessions (self (snd (get_answer w question session_id max_sources fr))) !! other
  = sessions (self fr) !! other /\
  vectorstore (self (snd (get_answer w question session_id max_sources fr)))
  = vectorstore (self fr).
Proof.
  intros Hne.
  destruct (get_answer_run w question session_id max_sources fr)
    as (answer & sources & fl & -> & _).
  simpl. split; [by apply save_lookup_other|done].
Qed.

Lemma get_answer_frame_witness :
  sessions (self (snd (get_answer hit_world (u "q") (KStr (u "s")) 5
                         {| self := fresh []; flags := [] |}))) !! KStr (u "t")
  = sessions (self {| self := fresh []; flags := [] |}) !! KStr (u "t") /\
  vectorstore (self (snd (get_answer hit_world (u "q") (KStr (u "s")) 5
                            {| self := fresh []; flags := [] |})))
  = vectorstore (self {| self := fresh []; flags := [] |}).
Proof. apply get_answer_frame. vm_compute. discriminate. Defined.

(** ** Sequences of appends *)

Lemma drop_last10_snoc {A} (all : list A) (x : A) :
  let turns := drop (length all - 10) all ++ [x] in
  drop (length turns - 10) turns = drop (length (all ++ [x]) - 10) (all ++ [x]).
Proof.
  cbv zeta. rewrite !length_app, length_drop. simpl length.
  destruct (Nat.le_gt_cases (length all) 10) as [Hle|Hgt].
  - replace (length all - 10)%nat with 0%nat by lia. rewrite drop_0.
    f_equal. lia.
  - rewrite <- drop_app_le by lia. rewrite drop_drop. f_equal. lia.
Qed.

Lemma append_all_stored (ops : list Append) (session_id : Key) :
  default [] (append_all ops ∅ !! session_id)
  = drop (length (appended session_id ops) - 10) (appended session_id ops).
Proof.
  induction ops as [|a ops IH] using rev_ind; [done|].
  unfold append_all. rewrite fold_left_app. simpl.
  fold (append_all ops ∅). unfold appended. rewrite filter_app, fmap_app.
  fold (appended session_id ops).
  rewrite filter_cons, filter_nil.
  destruct (decide (app_session a = session_id)) as [<-|Hne].
  - rewrite save_lookup. simpl. rewrite IH. apply (drop_last10_snoc _ (turn_of a)).
  - rewrite save_lookup_other by done. simpl. by rewrite app_nil_r.
Qed.

Lemma recent_stored (sessions : gmap Key (list Turn)) (session_id : Key)
    (max_messages : Z) :
  recent sessions session_id max_messages
  = slice_from (default [] (sessions !! session_id)) (- max_messages).
Proof.
  unfold recent. destruct (sessions !! session_id); [done|].
  symmetry. apply (drop_nil (A := Turn)).
Qed.

Lemma get_session_history_recent (sessions : gmap Key (list Turn))
    (session_id : Key) (max_messages : Z) :
  _get_session_history sessions session_id max_messages
  = join nl (concat (map history_lines (recent sessions session_id max_messages))).
Proof.
  unfold _get_session_history, recent. by destruct (sessions !! session_id).
Qed.

(** C5: after any sequence of appends, starting from the empty store, the
    list stored for a session is the turns appended to it without all but
    the last 10, in insertion order; it never holds more than 10 turns; the
    turns [_get_session_history] renders are a suffix of it, oldest first,
    and for a positive [max_messages] the last min(max_messages, 10) turns
    appended. *)
Theorem session_bounded_fifo (ops : list Append) (session_id : Key) :
  let stored := default [] (append_all ops ∅ !! session_id) in
  let all := appended session_id ops in
  stored = drop (length all - 10) all /\
  (length stored <= 10)%nat /\
  forall max_messages : Z,
    _get_session_history (append_all ops ∅) session_id max_messages
    = join nl (concat (map history_lines
                         (recent (append_all ops ∅) session_id max_messages))) /\
    recent (append_all ops ∅) session_id max_messages `suffix_of` stored /\
    (length (recent (append_all ops ∅) session_id max_messages) <= 10)%nat /\
    (0 < max_messages ->
     recent (append_all ops ∅) session_id max_messages
     = drop (length all - Z.to_nat (Z.min max_messages 10)) all).
Proof.
  cbv zeta. pose proof (append_all_stored ops session_id) as Hst.
  assert (Hlen : (length (default [] (append_all ops ∅ !! session_id)) <= 10)%nat).
  { rewrite Hst, length_drop. lia. }
  split; [done|]. split; [done|]. intros m.
  split; [apply get_session_history_recent|].
  rewrite recent_stored. unfold slice_from. split; [apply suffix_drop|].
  split; [rewrite length_drop; lia|].
  intros Hm. unfold slice_bound.
  destruct (Z.ltb_spec (- m) 0) as [_|?]; [|lia].
  rewrite Hst at 2. rewrite drop_drop. f_equal.
  unfold len. rewrite Hst, length_drop. lia.
Qed.

Lemma session_bounded_fifo_witness :
  default [] (append_all fifteen ∅ !! KStr (u "s")) = drop 5 (appended (KStr (u "s")) fifteen) /\
  recent (append_all fifteen ∅) (KStr (u "s")) 4 = drop 11 (appended (KStr (u "s")) fifteen).
Proof.
  destruct (session_bounded_fifo fifteen (KStr (u "s"))) as (H1 & _ & H3). split.
  - exact H1.
  - destruct (H3 4) as (_ & _ & _ & H). apply H. lia.
Defined.

(** ** Source citations *)

Lemma extract_loop_acc (rs : list SearchResult) :
  forall (sources : list Source) (seen : gset str),
    extract_loop rs sources seen = sources ++ extract_loop rs [] seen.
Proof.
  induction rs as [|r rs IH]; intros sources seen; simpl.
  - by rewrite app_nil_r.
  - destruct (decide (url (metadata r) ∈ seen)); [apply IH|].
    rewrite (IH (sources ++ [cite r])), (IH ([] ++ [cite r])).
    by rewrite <- app_assoc.
Qed.

Lemma extract_loop_cons (r : SearchResult) (rs : list SearchResult) (seen : gset str) :
  extract_loop (r :: rs) [] seen
  = if decide (url (metadata r) ∈ seen) then extract_loop rs [] seen
    else cite r :: extract_loop rs [] ({[url (metadata r)]} ∪ seen).
Proof.
  simpl. destruct (decide (url (metadata r) ∈ seen)); [done|].
  by rewrite extract_loop_acc.
Qed.

(** The urls cited are those of the results that were not seen before. *)
Lemma extract_loop_urls (rs : list SearchResult) :
  forall (seen : gset str) (x : str),
    x ∈ source_url <$> extract_loop rs [] seen
    <-> (x ∉ seen) /\ exists r, r ∈ rs /\ url (metadata r) = x.
Proof.
  induction rs as [|r rs IH]; intros seen x.
  - simpl. split; [by intros ?%elem_of_nil|]. intros (_ & r & ?%elem_of_nil & _). done.
  - rewrite extract_loop_cons.
    destruct (decide (url (metadata r) ∈ seen)) as [Hin|Hout].
    + rewrite IH. split.
      * intros (Hx & r' & Hr' & <-). split; [done|]. exists r'. split; [by right|done].
      * intros (Hx & r' & Hr' & <-). split; [done|].
        apply elem_of_cons in Hr' as [->|Hr']; [done|]. by exists r'.
    + rewrite fmap_cons, elem_of_cons, IH. simpl. split.
      * intros [->|(Hx & r' & Hr' & <-)].
        -- split; [done|]. exists r. split; [by left|done].
        -- split; [intros Hs; apply Hx, elem_of_union_r, Hs|].
           exists r'. split; [by right|done].
      * intros (Hx & r' & Hr' & <-).
        apply elem_of_cons in Hr' as [->|Hr']; [by left|].
        destruct (decide (url (metadata r') = url (metadata r))) as [?|Hne];
          [by left|right].
        split; [|by exists r'].
        by intros [?%elem_of_singleton|?]%elem_of_union.
Qed.

Lemma extract_loop_NoDup (rs : list SearchResult) :
  forall seen : gset str, NoDup (source_url <$> extract_loop rs [] seen).
Proof.
  induction rs as [|r rs IH]; intros seen; [constructor|].
  rewrite extract_loop_cons. destruct (decide (url (metadata r) ∈ seen)); [apply IH|].
  rewrite fmap_cons. constructor; [|apply IH].
  rewrite extract_loop_urls. simpl. intros [Hx _].
  by apply Hx, elem_of_union_l, elem_of_singleton.
Qed.

(** The citations are those of the first occurrences outside [seen], by
    increasing index. *)
Lemma extract_loop_firsts (rs : list SearchResult) :
  forall seen : gset str,
    exists idx : list nat,
      StronglySorted lt idx /\
      Forall2 (fun i s => exists r, first_at rs i r /\ (url (metadata r) ∉ seen) /\ s = cite r)
        idx (extract_loop rs [] seen) /\
      forall i r, first_at rs i r -> url (metadata r) ∉ seen -> i ∈ idx.
Proof.
  induction rs as [|r rs IH]; intros seen.
  - exists []. split; [constructor|]. split; [constructor|].
    intros i r [Hi _]. by rewrite lookup_nil in Hi.
  - rewrite extract_loop_cons.
    destruct (decide (url (metadata r) ∈ seen)) as [Hin|Hout].
    + destruct (IH seen) as (idx & Hsorted & HF & Hall).
      exists (S <$> idx). split; [|split].
      * apply (StronglySorted_fmap _ lt); [|done]. intros a b. simpl. lia.
      * apply Forall2_fmap_l. eapply Forall2_impl; [exact HF|].
        intros i s (r' & [Hi Hfirst] & Hout & ->). exists r'.
        split; [|done]. split; [done|].
        intros [|j] r'' Hj Hr''; simpl in Hr''.
        -- injection Hr'' as <-. congruence.
        -- apply (Hfirst j); [lia|done].
      * intros [|i] r' [Hi Hfirst] Hout; simpl in Hi.
        -- injection Hi as <-. done.
        -- apply list_elem_of_fmap. exists i. split; [done|].
           apply (Hall i r'); [|done]. split; [done|].
           intros j r'' Hj Hr''. apply (Hfirst (S j)); [lia|done].
    + destruct (IH ({[url (metadata r)]} ∪ seen)) as (idx & Hsorted & HF & Hall).
      exists (0%nat :: (S <$> idx)). split; [|split].
      * constructor.
        -- apply (StronglySorted_fmap _ lt); [|done]. intros a b. simpl. lia.
        -- apply Forall_fmap, Forall_forall. intros i _. simpl. lia.
      * constructor.
        -- exists r. split; [|done]. split; [done|]. intros j r' Hj. lia.
        -- apply Forall2_fmap_l. eapply Forall2_impl; [exact HF|].
           intros i s (r' & [Hi Hfirst] & Hnew & ->). exists r'.
           split; [|split; [set_solver|done]]. split; [done|].
           intros [|j] r'' Hj Hr''; simpl in Hr''.
           ++ injection Hr'' as <-. set_solver.
           ++ apply (Hfirst j); [lia|done].
      * intros [|i] r' [Hi Hfirst] Hnew; [by left|right]. simpl in Hi.
        apply list_elem_of_fmap. exists i. split; [done|].
        apply (Hall i r').
        -- split; [done|]. intros j r'' Hj Hr''. apply (Hfirst (S j)); [lia|done].
        -- assert (url (metadata r) <> url (metadata r'))
             by (apply (Hfirst 0%nat); [lia|done]).
           by intros [?%elem_of_singleton|?]%elem_of_union.
Qed.

(** C6: the citations extracted from any list of results have pairwise
    distinct urls, cover exactly the urls of the results, and each of them
    carries the title, the url and the description found in the metadata of
    the first result with its url; they are listed by increasing position of
    that first result. *)
Theorem extract_sources_dedup (rs : list SearchResult) :
  NoDup (source_url <$> _extract_sources rs) /\
  (forall x : str,
     x ∈ source_url <$> _extract_sources rs
     <-> exists r, r ∈ rs /\ url (metadata r) = x) /\
  exists idx : list nat,
    StronglySorted lt idx /\
    Forall2 (fun i s => exists r,
               first_at rs i r /\
               source_title s = title (metadata r) /\
               source_url s = url (metadata r) /\
               source_description s = description (metadata r))
      idx (_extract_sources rs) /\
    forall i r, first_at rs i r -> i ∈ idx.
Proof.
  unfold _extract_sources. split; [apply extract_loop_NoDup|]. split.
  - intros x. rewrite extract_loop_urls. split.
    + by intros [_ H].
    + intros H. split; [apply not_elem_of_empty|done].
  - destruct (extract_loop_firsts rs ∅) as (idx & Hsorted & HF & Hall).
    exists idx. split; [done|]. split.
    + eapply Forall2_impl; [exact HF|]. intros i s (r & Hfirst & _ & ->). by exists r.
    + intros i r Hfirst. apply (Hall i r Hfirst), not_elem_of_empty.
Qed.

(** ** Sequences of requests *)

Lemma is_first_after_save (now : float) (sessions : gmap Key (list Turn))
    (session_id : Key) (question answer : str) (other : Key) :
  is_first_message (_save_to_session now sessions session_id question answer) other
  = if bool_decide (session_id = other) then false
    else is_first_message sessions other.
Proof.
  unfold is_first_message. case_bool_decide as Heq.
  - subst other. rewrite save_lookup_snoc. cbv zeta.
    unfold len. rewrite length_app. simpl. apply Z.eqb_neq. lia.
  - by rewrite save_lookup_other.
Qed.

Lemma serve_flags (requests : list Request) :
  forall (service : EoraRAGService) (earlier : list Request),
    (forall sid, is_first_message (sessions service) sid
                 = negb (seen_before earlier sid)) ->
    forall (k : nat) (r : Request) (rep : Reply),
      requests !! k = Some r ->
      fst (serve service requests) !! k = Some rep ->
      reply_flags rep
      = expected_flags (vectorstore service) (earlier ++ take k requests) r.
Proof.
  induction requests as [|r0 rest IH]; intros service earlier Hinv k r rep Hr Hrep;
    [by rewrite lookup_nil in Hr|].
  simpl in Hrep.
  destruct (get_answer_run (req_world r0) (req_question r0) (req_session r0)
              (req_max_sources r0) {| self := service; flags := [] |})
    as (answer & sources & fl & Hrun & Hcases).
  rewrite Hrun in Hrep. simpl in Hrep, Hcases.
  destruct (serve _ rest) as [replies service'] eqn:Hserve.
  destruct k as [|k]; simpl in Hr, Hrep.
  - injection Hr as <-. injection Hrep as <-. simpl.
    rewrite app_nil_r. unfold expected_flags.
    destruct (search _ _ _ _) as [[|r1 rs]|e].
    + tauto.
    + destruct Hcases as [-> _]. by rewrite Hinv.
    + tauto.
  - replace (earlier ++ take (S k) (r0 :: rest))
      with ((earlier ++ [r0]) ++ take k rest) by (by rewrite <- app_assoc).
    change (vectorstore service) with
      (vectorstore {| vectorstore := vectorstore service;
                      sessions := _save_to_session (time_time (req_world r0))
                                    (sessions service) (req_session r0)
                                    (req_question r0) answer |}).
    apply IH; [|done|by rewrite Hserve].
    intros sid. simpl. rewrite is_first_after_save, Hinv.
    unfold seen_before. rewrite existsb_app. simpl.
    case_bool_decide; [by rewrite orb_true_r|by rewrite !orb_false_r].
Qed.

(** C7 as stated fails: when the first request of a session retrieves
    nothing, it returns before the flag is assigned, and the second request
    finds one recorded turn: the flag is true on no request of the session. *)
Lemma first_flag_never_true :
  reply_flags <$> fst (serve (fresh [])
                         [request silent_world (u "q1") (KStr (u "s"));
                          request hit_world (u "q2") (KStr (u "s"))])
  = [[]; [false]].
Proof. vm_compute. reflexivity. Qed.

(** C7, amended: among requests served from a fresh service, a request
    assigns the first-message flag only when its retrieval is not empty, and
    the value is true exactly when no earlier request was made on the same
    session; so the flag is true at most once per session, only on the
    session's first request, and never on a later one. *)
Theorem first_message_flag (collection : list Entry) (requests : list Request)
    (k : nat) (r : Request) (rep : Reply) :
  requests !! k = Some r ->
  fst (serve (fresh collection) requests) !! k = Some rep ->
  reply_flags rep = expected_flags collection (take k requests) r /\
  (true ∈ reply_flags rep -> seen_before (take k requests) (req_session r) = false).
Proof.
  intros Hr Hrep.
  assert (Hflags : reply_flags rep = expected_flags collection (take k requests) r).
  { apply (serve_flags requests (fresh collection) [] (fun _ => eq_refl) k r rep Hr Hrep). }
  split; [done|]. rewrite Hflags. unfold expected_flags.
  destruct (search _ _ _ _) as [[|r1 rs]|e]; [by intros ?%elem_of_nil| |by intros ?%elem_of_nil].
  intros Hin. apply list_elem_of_singleton in Hin.
  by destruct (seen_before (take k requests) (req_session r)).
Qed.

Lemma first_message_flag_witness :
  let requests := [request hit_world (u "q1") (KStr (u "s"));
                   request hit_world (u "q2") (KStr (u "s"))] in
  exists rep,
    fst (serve (fresh []) requests) !! 0%nat = Some rep /\
    reply_flags rep
    = expected_flags [] (take 0 requests) (request hit_world (u "q1") (KStr (u "s"))) /\
    reply_flags rep = [true].
Proof.
  intros requests. eexists. split; [vm_compute; reflexivity|].
  split; [|reflexivity].
  refine (proj1 (first_message_flag [] requests 0 _ _ _ _));
    [reflexivity|vm_compute; reflexivity].
Defined.

(** ** Worked examples *)

Example get_answer_first_request :
  fst (get_answer hit_world (u "q") (KStr (u "s")) 5 {| self := fresh []; flags := [] |})
  = Ok (u "answer", [cite {| content := u "doc"; metadata := sample_meta;
                             similarity := PrimFloat.one |}]).
Proof. vm_compute. reflexivity. Qed.

Example get_answer_no_retrieval :
  fst (get_answer silent_world (u "q") (KStr (u "s")) 5 {| self := fresh []; flags := [] |})
  = Ok (no_information, []).
Proof. vm_compute. reflexivity. Qed.

Example fifteen_appends :
  question <$> default [] (append_all fifteen ∅ !! KStr (u "s"))
  = str_of_int <$> seqZ 6 10.
Proof. vm_compute. reflexivity. Qed.

Example extract_sources_repeated :
  let res (x t : string) :=
    {| content := u "c";
       metadata := {| url := u x; title := u t; description := u "d";
                      chunk_index := 0; total_chunks := 1 |};
       similarity := PrimFloat.one |} in
  _extract_sources [res "a" "A1"; res "b" "B1"; res "a" "A2"; res "c" "C1"; res "b" "B2"]
  = [cite (res "a" "A1"); cite (res "b" "B1"); cite (res "c" "C1")].
Proof. vm_compute. reflexivity. Qed.

(** * Further properties of the code *)

(** ** Trimmed chunks *)

Lemma chunk_loop_trimmed (text : str) (chunk_size overlap : Z) :
  forall (fuel : nat) (start : Z) (chunks out : list str),
    Forall (fun c => truthy c = true /\ strip c = c) chunks ->
    chunk_loop fuel text chunk_size overlap start chunks = Some (Ok out) ->
    Forall (fun c => truthy c = true /\ strip c = c) out.
Proof.
  induction fuel as [|fuel IH]; intros start chunks out Hall; simpl; [done|].
  destruct (start <? len text); [|by intros [= <-]].
  destruct (window_end text chunk_size start) as [e|msg]; [|done].
  assert (Hall' : Forall (fun c => truthy c = true /\ strip c = c)
            (if truthy (strip (slice text start e))
             then chunks ++ [strip (slice text start e)] else chunks)).
  { destruct (truthy (strip (slice text start e))) eqn:E; [|done].
    apply Forall_app. split; [done|]. constructor; [|constructor].
    split; [done|apply strip_fixed]. }
  destruct (len text <=? e - overlap); [by intros [= <-]|].
  by apply IH.
Qed.

(** X1: a text longer than chunk_size is never returned with an empty chunk
    or with a chunk that starts or ends with whitespace, whatever the
    parameters. *)
Theorem chunk_text_trimmed (fuel : nat) (text : str) (chunk_size overlap : Z)
    (chunks : list str) :
  chunk_size < len text ->
  _chunk_text fuel text chunk_size overlap = Some (Ok chunks) ->
  Forall (fun c => c <> [] /\ strip c = c /\
                   (forall x, head c = Some x -> isspace x = false) /\
                   (forall x, last c = Some x -> isspace x = false)) chunks.
Proof.
  intros Hlong. unfold _chunk_text.
  destruct (Z.leb_spec (len text) chunk_size) as [?|_]; [lia|].
  intros H. apply (chunk_loop_trimmed _ _ _ _ _ [] chunks) in H; [|constructor].
  eapply Forall_impl; [exact H|]. intros c [Hne Hfix]. simpl.
  split; [by destruct c|]. split; [done|]. rewrite <- Hfix. apply strip_ends.
Qed.

Lemma chunk_text_trimmed_witness :
  Forall (fun c => c <> [] /\ strip c = c /\
                   (forall x, head c = Some x -> isspace x = false) /\
                   (forall x, last c = Some x -> isspace x = false))
    [u "a"; u "bc"].
Proof.
  apply (chunk_text_trimmed 4 (u " abc") 2 0); vm_compute; reflexivity.
Defined.

(** ** How many chunks *)




(** ** Parameters that do not advance *)

(** X3: with overlap = chunk_size and no sentence end in the first search
    span, the window start stays at 0: [_chunk_text] returns for no amount of
    fuel on any text longer than chunk_size. *)
Theorem chunk_text_full_overlap_diverges (text : str) (chunk_size : Z) :
  0 < chunk_size < len text ->
  (forall k, Z.max (chunk_size / 2) (chunk_size - 100) < k <= chunk_size ->
             terminal_at text k = false) ->
  forall fuel : nat, _chunk_text fuel text chunk_size chunk_size = None.
Proof.
  intros Hcs Hno fuel. unfold _chunk_text.
  destruct (Z.leb_spec (len text) chunk_size) as [?|_]; [lia|].
  apply (chunk_loop_stuck text chunk_size chunk_size 0 chunk_size).
  - apply Z.ltb_lt. lia.
  - rewrite (window_end_raw text chunk_size 0); [done|lia..|].
    intros k Hk. apply Hno. lia.
  - lia.
Qed.

Lemma chunk_text_full_overlap_diverges_witness :
  _chunk_text 1000 (u "abcdefgh") 3 3 = None.
Proof.
  apply chunk_text_full_overlap_diverges.
  - vm_compute. intuition discriminate.
  - intros k Hk. change (Z.max (3 / 2) (3 - 100)) with 1 in Hk.
    assert (k = 2 \/ k = 3) as [->| ->] by lia; reflexivity.
Defined.

Lemma scan_back_no_terminal (text : str) :
  Forall (fun c => is_terminal c = false) text ->
  forall (n : nat) (i : Z),
    scan_back text i n = Raise IndexError_str \/
    (scan_back text i n = Ok None /\ (n = 0%nat \/ - len text <= i)).
Proof.
  intros Hno. induction n as [|n IH]; intros i; simpl; [right; by split; [|left]|].
  unfold getitem.
  destruct ((_ <? 0) || (len text <=? _)) eqn:Hrange; [by left|].
  destruct (text !! _) as [c|] eqn:Hc; [|by left]. simpl.
  rewrite Forall_forall in Hno. rewrite (Hno c) by (by eapply list_elem_of_lookup_2).
  destruct (IH (i - 1)) as [->|[-> _]]; [by left|right]. split; [done|right].
  apply orb_false_iff in Hrange as [H1 _]. apply Z.ltb_ge in H1.
  pose proof (len_nonneg text). revert H1. destruct (Z.ltb_spec i 0); lia.
Qed.

Lemma chunk_loop_raises (text : str) (chunk_size overlap : Z) :
  Forall (fun c => is_terminal c = false) text ->
  0 < chunk_size < len text -> chunk_size < overlap ->
  forall (m : nat) (start : Z) (chunks : list str),
    start <= 0 -> start + chunk_size + len text < Z.of_nat m ->
    exists fuel : nat,
      chunk_loop fuel text chunk_size overlap start chunks = Some (Raise IndexError_str).
Proof.
  intros Hno Hcs Hov. induction m as [|m IH]; intros start chunks Hs Hm.
  - exists 1%nat. simpl.
    destruct (Z.ltb_spec start (len text)) as [_|?]; [|lia].
    unfold window_end. destruct (Z.ltb_spec (start + chunk_size) (len text)) as [_|?]; [|lia].
    assert (0 <= chunk_size / 2 < chunk_size)
      by (split; [apply Z.div_pos|apply Z.div_lt]; lia).
    destruct (scan_back_no_terminal text Hno
                (Z.to_nat (start + chunk_size
                           - Z.max (start + chunk_size / 2) (start + chunk_size - 100)))
                (start + chunk_size)) as [->|[_ [?|?]]]; [done|lia..].
  - simpl in IH.
    assert (0 <= chunk_size / 2 < chunk_size)
      by (split; [apply Z.div_pos|apply Z.div_lt]; lia).
    destruct (scan_back_no_terminal text Hno
                (Z.to_nat (start + chunk_size
                           - Z.max (start + chunk_size / 2) (start + chunk_size - 100)))
                (start + chunk_size)) as [Hscan|[Hscan [?|Hin]]]; [|lia|].
    + exists 1%nat. simpl.
      destruct (Z.ltb_spec start (len text)) as [_|?]; [|lia].
      unfold window_end.
      destruct (Z.ltb_spec (start + chunk_size) (len text)) as [_|?]; [|lia].
      by rewrite Hscan.
    + destruct (IH (start + chunk_size - overlap)
                  (if truthy (strip (slice text start (start + chunk_size)))
                   then chunks ++ [strip (slice text start (start + chunk_size))]
                   else chunks)) as [fuel Hfuel]; [lia..|].
      exists (S fuel). simpl.
      destruct (Z.ltb_spec start (len text)) as [_|?]; [|lia].
      unfold window_end.
      destruct (Z.ltb_spec (start + chunk_size) (len text)) as [_|?]; [|lia].
      rewrite Hscan. simpl.
      destruct (Z.leb_spec (len text) (start + chunk_size - overlap)) as [?|_]; [lia|].
      exact Hfuel.
Qed.

(** X4: with overlap > chunk_size the window start moves backwards; on a
    text longer than chunk_size without any sentence end the loop goes on
    until the search reads an index before the beginning of the text, and
    [_chunk_text] raises IndexError. *)
Theorem chunk_text_overlap_above_raises (text : str) (chunk_size overlap : Z) :
  Forall (fun c => is_terminal c = false) text ->
  0 < chunk_size < len text -> chunk_size < overlap ->
  exists fuel : nat,
    _chunk_text fuel text chunk_size overlap = Some (Raise IndexError_str).
Proof.
  intros Hno Hcs Hov. unfold _chunk_text.
  destruct (Z.leb_spec (len text) chunk_size) as [?|_]; [lia|].
  apply (chunk_loop_raises text chunk_size overlap Hno Hcs Hov
           (Z.to_nat (chunk_size + len text + 1)) 0 []); lia.
Qed.

Lemma chunk_text_overlap_above_raises_witness :
  exists fuel : nat, _chunk_text fuel (u "aaa") 2 5 = Some (Raise IndexError_str).
Proof.
  apply chunk_text_overlap_above_raises.
  - repeat constructor.
  - vm_compute. intuition discriminate.
  - lia.
Defined.

(** ** Consecutive windows *)

Lemma chunk_windows_links (text : str) (chunk_size overlap : Z) :
  advancing chunk_size overlap ->
  forall (fuel : nat) (start : Z) (ws : list (Z * Z)),
    0 <= start ->
    chunk_windows fuel text chunk_size overlap start = Some ws ->
    (forall w, head ws = Some w -> fst w = start) /\
    Forall (fun w => 0 <= fst w < len text /\ fst w + overlap < snd w) ws /\
    forall (k : nat) (w1 w2 : Z * Z),
      ws !! k = Some w1 -> ws !! S k = Some w2 -> fst w2 = snd w1 - overlap.
Proof.
  intros Hadv. induction fuel as [|fuel IH]; intros start ws Hs; simpl; [done|].
  destruct (Z.ltb_spec start (len text)) as [Hin|?].
  2:{ intros [= <-]. split; [done|]. split; [constructor|]. intros k w1 w2 Hk.
      by rewrite lookup_nil in Hk. }
  destruct (window_end_spec text chunk_size start) as (e & -> & _ & He);
    [apply Hadv|lia|].
  destruct (advancing_step chunk_size overlap start e Hadv) as [Hnext _];
    [destruct He as [?|[? ?]]; [by left|by right]|].
  destruct (len text <=? e - overlap).
  - intros [= <-]. split; [by intros w [= <-]|]. split.
    + constructor; [simpl; lia|constructor].
    + intros [|k] w1 w2 Hk Hk'; simpl in Hk'; by rewrite ?lookup_nil in Hk'.
  - destruct (chunk_windows fuel text chunk_size overlap (e - overlap)) as [ws'|] eqn:E;
      [|done].
    intros [= <-]. destruct (IH (e - overlap) ws' ltac:(lia) E) as (Hhead & Hall & Hlink).
    split; [by intros w [= <-]|]. split.
    + constructor; [simpl; lia|done].
    + intros [|k] w1 w2 Hk Hk'; simpl in Hk, Hk'.
      * injection Hk as <-. simpl. apply Hhead. by destruct ws'.
      * by apply (Hlink k).
Qed.

(** X5: for advancing parameters and a non-negative overlap, when a window
    ends inside the text the next window opens with exactly its last
    [overlap] characters. *)
Theorem chunk_windows_share_overlap (fuel : nat) (text : str)
    (chunk_size overlap : Z) (ws : list (Z * Z)) (k : nat) (w1 w2 : Z * Z) :
  advancing chunk_size overlap -> 0 <= overlap ->
  chunk_windows fuel text chunk_size overlap 0 = Some ws ->
  ws !! k = Some w1 -> ws !! S k = Some w2 ->
  snd w1 <= len text ->
  take (Z.to_nat overlap) (raw text w2)
  = drop (length (raw text w1) - Z.to_nat overlap) (raw text w1) /\
  length (take (Z.to_nat overlap) (raw text w2)) = Z.to_nat overlap.
Proof.
  intros Hadv Hov Hws Hk Hk' Hin.
  destruct (chunk_windows_links text chunk_size overlap Hadv fuel 0 ws
              ltac:(lia) Hws) as (_ & Hall & Hlink).
  pose proof (Hlink k w1 w2 Hk Hk') as Hstart.
  rewrite Forall_forall in Hall.
  destruct (Hall w1) as [H1 H1']; [by eapply list_elem_of_lookup_2|].
  destruct (Hall w2) as [H2 H2']; [by eapply list_elem_of_lookup_2|].
  destruct w1 as [s1 e1], w2 as [s2 e2]. simpl in *. subst s2.
  unfold raw. simpl. rewrite !slice_inside by lia.
  rewrite (Z.min_l e1) by lia.
  assert (Hlen1 : length (take (Z.to_nat (e1 - s1)) (drop (Z.to_nat s1) text))
                  = Z.to_nat (e1 - s1)).
  { rewrite length_take, length_drop. unfold len in *. lia. }
  rewrite Hlen1. split.
  - rewrite take_take, Nat.min_l by lia.
    replace (take (Z.to_nat (e1 - s1)) (drop (Z.to_nat s1) text))
      with (take ((Z.to_nat (e1 - s1) - Z.to_nat overlap) + Z.to_nat overlap)
              (drop (Z.to_nat s1) text)) by (f_equal; lia).
    rewrite <- take_drop_commute, drop_drop. f_equal. f_equal. lia.
  - rewrite take_take, length_take, length_drop. unfold len in *. lia.
Qed.

Lemma chunk_windows_share_overlap_witness :
  take (Z.to_nat 2) (raw (u "ab. cd! efgh") (5, 11))
  = drop (length (raw (u "ab. cd! efgh") (0, 7)) - Z.to_nat 2)
      (raw (u "ab. cd! efgh") (0, 7)) /\
  length (take (Z.to_nat 2) (raw (u "ab. cd! efgh") (5, 11))) = Z.to_nat 2.
Proof.
  apply (chunk_windows_share_overlap 3 (u "ab. cd! efgh") 6 2
           [(0, 7); (5, 11); (9, 15)] 0).
  - unfold advancing. vm_compute. intuition discriminate.
  - lia.
  - vm_compute. reflexivity.
  - reflexivity.
  - reflexivity.
  - vm_compute. discriminate.
Defined.

(** X6: once a window reaches the end of the text, a further window, if
    the loop cuts one, holds nothing new: its characters are a suffix of the
    previous window's. *)
Theorem chunk_windows_tail_repeats (fuel : nat) (text : str)
    (chunk_size overlap : Z) (ws : list (Z * Z)) (k : nat) (w1 w2 : Z * Z) :
  advancing chunk_size overlap -> 0 <= overlap ->
  chunk_windows fuel text chunk_size overlap 0 = Some ws ->
  ws !! k = Some w1 -> ws !! S k = Some w2 ->
  len text <= snd w1 ->
  raw text w2 `suffix_of` raw text w1.
Proof.
  intros Hadv Hov Hws Hk Hk' Hend.
  destruct (chunk_windows_links text chunk_size overlap Hadv fuel 0 ws
              ltac:(lia) Hws) as (_ & Hall & Hlink).
  pose proof (Hlink k w1 w2 Hk Hk') as Hstart.
  rewrite Forall_forall in Hall.
  destruct (Hall w1) as [H1 H1']; [by eapply list_elem_of_lookup_2|].
  destruct (Hall w2) as [H2 H2']; [by eapply list_elem_of_lookup_2|].
  destruct w1 as [s1 e1], w2 as [s2 e2]. simpl in *. subst s2.
  unfold raw. simpl. rewrite !slice_inside by lia.
  rewrite !Z.min_r by lia.
  rewrite !take_ge by (rewrite length_drop; unfold len in *; lia).
  replace (Z.to_nat (e1 - overlap))
    with (Z.to_nat s1 + Z.to_nat (e1 - overlap - s1))%nat by lia.
  rewrite <- drop_drop. apply suffix_drop.
Qed.

Lemma chunk_windows_tail_repeats_witness :
  raw (replicate 2500 97%N) (2400, 3400) `suffix_of` raw (replicate 2500 97%N) (1600, 2600).
Proof.
  apply (chunk_windows_tail_repeats 4 (replicate 2500 97%N) 1000 200 windows_2500 2).
  - exact defaults_advance.
  - lia.
  - vm_compute. reflexivity.
  - reflexivity.
  - reflexivity.
  - vm_compute. discriminate.
Defined.

(** ** Decimal rendering of integers *)

Lemma u_ascii (s : string) :
  Forall (fun a => (N_of_ascii a < 128)%N) (list_ascii_of_string s) ->
  u s = N_of_ascii <$> list_ascii_of_string s.
Proof.
  unfold u. induction 1 as [|a l Ha _ IH]; [done|]. simpl.
  destruct (N.ltb_spec (N_of_ascii a) 128) as [_|?]; [|lia]. by rewrite IH.
Qed.

Lemma pretty_N_char_digit (x : N) : digit (N_of_ascii (pretty_N_char x)).
Proof. unfold pretty_N_char, digit. repeat case_match; simpl; lia. Qed.

Lemma pretty_N_go_digits (x : N) : forall s : string,
  Forall (fun a => digit (N_of_ascii a)) (list_ascii_of_string s) ->
  Forall (fun a => digit (N_of_ascii a)) (list_ascii_of_string (pretty_N_go x s)).
Proof.
  induction (N.lt_wf_0 x) as [x _ IH]. intros s Hs.
  destruct (decide (x = 0%N)) as [->|Hx]; [by rewrite pretty_N_go_0|].
  rewrite pretty_N_go_step by lia. apply IH.
  - apply N.div_lt; lia.
  - simpl. constructor; [apply pretty_N_char_digit|done].
Qed.

Lemma pretty_N_digits (x : N) :
  Forall (fun a => digit (N_of_ascii a)) (list_ascii_of_string (pretty x)).
Proof.
  unfold pretty, pretty_N. case_decide.
  - repeat constructor; unfold digit; simpl; lia.
  - apply pretty_N_go_digits. constructor.
Qed.

Lemma pretty_Z_digits (z : Z) :
  0 <= z -> Forall (fun a => digit (N_of_ascii a)) (list_ascii_of_string (pretty z)).
Proof.
  intros Hz. destruct z as [|p|p]; [|apply (pretty_N_digits (Npos p))|lia].
  repeat constructor; unfold digit; simpl; lia.
Qed.

(** [str(i)] of a non-negative integer consists of decimal digits. *)
Lemma str_of_int_digits (z : Z) : 0 <= z -> Forall digit (str_of_int z).
Proof.
  intros Hz. unfold str_of_int. pose proof (pretty_Z_digits z Hz) as H.
  rewrite u_ascii.
  - by apply Forall_fmap.
  - eapply Forall_impl; [exact H|]. unfold digit. intros a ?. simpl in *. lia.
Qed.

Lemma fmap_N_of_ascii_inj (l1 l2 : list ascii) :
  N_of_ascii <$> l1 = N_of_ascii <$> l2 -> l1 = l2.
Proof.
  revert l2. induction l1 as [|x l1 IH]; intros [|y l2]; simpl; try done.
  intros [= Hxy Hl]. f_equal; [|by apply IH].
  rewrite <- (ascii_N_embedding x), <- (ascii_N_embedding y). by rewrite Hxy.
Qed.

Lemma str_of_int_inj (a b : Z) :
  0 <= a -> 0 <= b -> str_of_int a = str_of_int b -> a = b.
Proof.
  intros Ha Hb. unfold str_of_int.
  rewrite !u_ascii.
  - intros H%fmap_N_of_ascii_inj. apply (inj pretty).
    rewrite <- (string_of_list_ascii_of_string (pretty a)),
      <- (string_of_list_ascii_of_string (pretty b)). by rewrite H.
  - eapply Forall_impl; [exact (pretty_Z_digits b Hb)|]. unfold digit. intros c ?. simpl in *. lia.
  - eapply Forall_impl; [exact (pretty_Z_digits a Ha)|]. unfold digit. intros c ?. simpl in *. lia.
Qed.

Lemma case_id_inj (a b : Z) :
  0 <= a -> 0 <= b -> case_id (a + 1) a = case_id (b + 1) b -> a = b.
Proof.
  intros Ha Hb. unfold case_id. intros H. apply app_inv_head in H.
  change (u "_") with [95%N] in H. simpl in H.
  apply not_elem_of_app_cons_inv_l in H as [H _].
  - apply str_of_int_inj in H; lia.
  - intros Hin. pose proof (str_of_int_digits (b + 1) ltac:(lia)) as Hd.
    rewrite Forall_forall in Hd. specialize (Hd _ Hin). unfold digit in Hd. lia.
  - intros Hin. pose proof (str_of_int_digits (a + 1) ltac:(lia)) as Hd.
    rewrite Forall_forall in Hd. specialize (Hd _ Hin). unfold digit in Hd. lia.
Qed.

Lemma expected_ids_NoDup (n : Z) : NoDup (expected_ids n).
Proof.
  unfold expected_ids. apply NoDup_fmap_2_strong; [|apply NoDup_seqZ].
  intros a b Ha%elem_of_seqZ Hb%elem_of_seqZ. apply case_id_inj; lia.
Qed.

Lemma expected_ids_snoc (n : nat) :
  expected_ids (Z.of_nat (S n))
  = expected_ids (Z.of_nat n) ++ [case_id (Z.of_nat n + 1) (Z.of_nat n)].
Proof. unfold expected_ids. by rewrite seqZ_S, fmap_app. Qed.

(** ** Ingestion *)

Lemma getkey_Ok (d : gmap str str) (key v : str) :
  getkey d key = Ok v <-> d !! key = Some v.
Proof. unfold getkey. destruct (d !! key); split; congruence. Qed.

Lemma well_staged_nothing : well_staged nothing_staged.
Proof. unfold well_staged. by vm_compute. Qed.

Lemma add_chunks_shape (ing : Ingest) (case : gmap str str) (total : Z)
    (chunks : list str) :
  forall (i : Z) (st : Staged) (calls : nat) (st' : Staged) (calls' : nat),
    well_staged st ->
    add_chunks ing case total i chunks st calls = Ok (st', calls') ->
    well_staged st'.
Proof.
  induction chunks as [|chunk rest IH]; intros i st calls st' calls' Hst; simpl.
  - by intros [= <- <-].
  - destruct (_get_embedding _ chunk _) as [embedding|]; [|by apply IH].
    destruct (getkey case (u "url")) as [cu|?]; [|done].
    destruct (getkey case (u "title")) as [ct|?]; [|done].
    destruct (getkey case (u "description")) as [cd|?]; [|done]. simpl.
    apply IH. destruct Hst as (He & Hm & Hc & Hi).
    unfold well_staged, len. simpl. rewrite !length_app. simpl.
    split; [lia|]. split; [lia|]. split; [unfold len in Hc; lia|].
    rewrite Hi, Hc. unfold len.
    replace (length (staged_documents st) + 1)%nat
      with (S (length (staged_documents st))) by lia.
    rewrite expected_ids_snoc. do 3 f_equal. lia.
Qed.

Lemma add_loop_shape (fuel : nat) (ing : Ingest) (cases : list (gmap str str)) :
  forall (st : Staged) (calls : nat) (st' : Staged) (calls' : nat),
    well_staged st ->
    add_loop fuel ing cases st calls = Some (Ok (st', calls')) ->
    well_staged st'.
Proof.
  induction cases as [|case rest IH]; intros st calls st' calls' Hst; simpl.
  - by intros [= <- <-].
  - destruct (getkey case (u "title")); [|done].
    destruct (getkey case (u "full_text")) as [full_text|]; [|done].
    destruct (_chunk_text fuel full_text 1000 200) as [[chunks|]|]; [|done..].
    destruct (add_chunks _ _ _ _ _ _ _) as [[st1 calls1]|] eqn:E; [|done].
    apply IH. by eapply add_chunks_shape.
Qed.

Lemma add_chunks_from (Q : str -> Metadata -> Prop) (ing : Ingest)
    (case : gmap str str) (total : Z) (chunks : list str) :
  forall (i : Z) (st : Staged) (calls : nat) (st' : Staged) (calls' : nat),
    (forall (j : nat) chunk cu ct cd,
       chunks !! j = Some chunk ->
       getkey case (u "url") = Ok cu -> getkey case (u "title") = Ok ct ->
       getkey case (u "description") = Ok cd ->
       Q chunk {| url := cu; title := ct; description := cd;
                  chunk_index := i + Z.of_nat j; total_chunks := total |}) ->
    Forall2 Q (staged_documents st) (staged_metadatas st) ->
    add_chunks ing case total i chunks st calls = Ok (st', calls') ->
    Forall2 Q (staged_documents st') (staged_metadatas st').
Proof.
  induction chunks as [|chunk rest IH]; intros i st calls st' calls' HQ Hst; simpl.
  - by intros [= <- <-].
  - assert (HQ' : forall (j : nat) chunk' cu ct cd,
              rest !! j = Some chunk' ->
              getkey case (u "url") = Ok cu -> getkey case (u "title") = Ok ct ->
              getkey case (u "description") = Ok cd ->
              Q chunk' {| url := cu; title := ct; description := cd;
                          chunk_index := i + 1 + Z.of_nat j; total_chunks := total |}).
    { intros j chunk' cu ct cd Hj Hu Ht Hd.
      replace (i + 1 + Z.of_nat j) with (i + Z.of_nat (S j)) by lia.
      by apply HQ. }
    destruct (_get_embedding _ chunk _) as [embedding|]; [|by apply IH].
    destruct (getkey case (u "url")) as [cu|?] eqn:Hu; [|done].
    destruct (getkey case (u "title")) as [ct|?] eqn:Ht; [|done].
    destruct (getkey case (u "description")) as [cd|?] eqn:Hd; [|done]. simpl.
    apply IH; [done|]. simpl. apply Forall2_app; [done|].
    constructor; [|constructor].
    replace i with (i + Z.of_nat 0) by lia. by apply HQ.
Qed.

Lemma add_loop_from (fuel : nat) (ing : Ingest) (all : list (gmap str str))
    (cases : list (gmap str str)) :
  forall (st : Staged) (calls : nat) (st' : Staged) (calls' : nat),
    (forall case, case ∈ cases -> case ∈ all) ->
    Forall2 (stored_from fuel all) (staged_documents st) (staged_metadatas st) ->
    add_loop fuel ing cases st calls = Some (Ok (st', calls')) ->
    Forall2 (stored_from fuel all) (staged_documents st') (staged_metadatas st').
Proof.
  induction cases as [|case rest IH]; intros st calls st' calls' Hsub Hst; simpl.
  - by intros [= <- <-].
  - destruct (getkey case (u "title")); [|done].
    destruct (getkey case (u "full_text")) as [full_text|] eqn:Hft; [|done].
    destruct (_chunk_text fuel full_text 1000 200) as [[chunks|]|] eqn:Hch; [|done..].
    destruct (add_chunks _ _ _ _ _ _ _) as [[st1 calls1]|] eqn:E; [|done].
    apply IH; [intros c Hc; apply Hsub; by right|].
    eapply (add_chunks_from _ ing case (len chunks) chunks 0); [|exact Hst|exact E].
    intros j chunk cu ct cd Hj Hu Ht Hd.
    exists case, full_text, chunks. simpl.
    pose proof (lookup_lt_Some _ _ _ Hj) as Hlt.
    split; [apply Hsub; by left|].
    split; [by apply getkey_Ok|]. split; [done|].
    split; [by apply getkey_Ok|]. split; [by apply getkey_Ok|].
    split; [by apply getkey_Ok|]. split; [done|].
    split; [unfold len; lia|]. by rewrite Z.add_0_l, Nat2Z.id.
Qed.

(** X7: when [add_cases] returns n, it has handed [collection.add] four
    lists of n entries each, and the ids are case_1_0, case_2_1, ...,
    pairwise distinct. *)
Theorem add_cases_batch (fuel : nat) (ing : Ingest) (collection : list Entry)
    (cases_file : str) (n : Z) (collection' : list Entry) :
  add_cases fuel ing collection cases_file = Some (Ok n, collection') ->
  exists documents embeddings metadatas ids,
    collection_add ing collection documents embeddings metadatas ids
    = (Ok tt, collection') /\
    len documents = n /\ len embeddings = n /\ len metadatas = n /\ len ids = n /\
    ids = expected_ids n /\ NoDup ids.
Proof.
  unfold add_cases. destruct (read_cases ing cases_file) as [cases|]; [|done].
  destruct (add_loop fuel ing cases nothing_staged 0) as [[[st calls]|]|] eqn:E;
    [|done..].
  destruct (collection_add _ _ _ _ _ _) as [[[]|] c] eqn:Hadd; [|done].
  intros [= <- <-].
  destruct (add_loop_shape _ _ _ _ _ _ _ well_staged_nothing E)
    as (He & Hm & Hc & Hi).
  exists (staged_documents st), (staged_embeddings st), (staged_metadatas st),
    (staged_ids st).
  split; [done|]. unfold len in *. split; [done|]. split; [lia|]. split; [lia|].
  split; [|split; [done|rewrite Hi; apply expected_ids_NoDup]].
  rewrite Hi. unfold expected_ids. rewrite length_fmap, length_seqZ. lia.
Qed.

(** X8: every document handed to the index is a chunk of one of the cases
    of the file, and its metadata carries that case's url, title and
    description, the chunk's position among all chunks of the case and their
    number, so that 0 <= chunk_index < total_chunks. *)
Theorem add_cases_provenance (fuel : nat) (ing : Ingest) (collection : list Entry)
    (cases_file : str) (n : Z) (collection' : list Entry)
    (cases : list (gmap str str)) :
  read_cases ing cases_file = Ok cases ->
  add_cases fuel ing collection cases_file = Some (Ok n, collection') ->
  exists documents embeddings metadatas ids,
    collection_add ing collection documents embeddings metadatas ids
    = (Ok tt, collection') /\
    Forall2 (stored_from fuel cases) documents metadatas.
Proof.
  unfold add_cases. intros ->.
  destruct (add_loop fuel ing cases nothing_staged 0) as [[[st calls]|]|] eqn:E;
    [|done..].
  destruct (collection_add _ _ _ _ _ _) as [[[]|] c] eqn:Hadd; [|done].
  intros [= <- <-].
  exists (staged_documents st), (staged_embeddings st), (staged_metadatas st),
    (staged_ids st).
  split; [done|].
  by apply (add_loop_from fuel ing cases cases nothing_staged 0 st calls);
    [|constructor|].
Qed.

(** What a returning [add_cases] has done, step by step. *)
Lemma add_cases_handed (fuel : nat) (ing : Ingest) (collection : list Entry)
    (cases_file : str) (n : Z) (collection' : list Entry) :
  add_cases fuel ing collection cases_file = Some (Ok n, collection') ->
  exists cases st calls,
    read_cases ing cases_file = Ok cases /\
    add_loop fuel ing cases nothing_staged 0 = Some (Ok (st, calls)) /\
    collection_add ing collection (staged_documents st) (staged_embeddings st)
      (staged_metadatas st) (staged_ids st) = (Ok tt, collection') /\
    n = len (staged_documents st) /\ well_staged st.
Proof.
  unfold add_cases. destruct (read_cases ing cases_file) as [cases|]; [|done].
  destruct (add_loop fuel ing cases nothing_staged 0) as [[[st calls]|]|] eqn:E;
    [|done..].
  destruct (collection_add _ _ _ _ _ _) as [[[]|] c] eqn:Hadd; [|done].
  intros [= <- <-]. exists cases, st, calls. repeat split; try done;
    by destruct (add_loop_shape _ _ _ _ _ _ _ well_staged_nothing E) as (? & ? & ? & ?).
Qed.

Lemma expected_ids_prefix (n1 n2 : Z) :
  n1 <= n2 -> expected_ids n1 `prefix_of` expected_ids n2.
Proof.
  intros Hle. unfold expected_ids.
  destruct (Z.le_gt_cases 0 n1) as [H0|H0].
  - replace n2 with (n1 + (n2 - n1)) by lia.
    rewrite seqZ_app, fmap_app by lia. by apply prefix_app_r.
  - rewrite (seqZ_nil 0 n1) by lia. apply prefix_nil.
Qed.

(** X9: the ids do not depend on the data or on what the collection already
    holds: of two runs that return, the ids of the one that stores fewer
    chunks are all used again by the other. *)
Theorem add_cases_ids_restart (fuel1 fuel2 : nat) (ing1 ing2 : Ingest)
    (collection1 collection2 : list Entry) (file1 file2 : str) (n1 n2 : Z)
    (collection1' collection2' : list Entry) :
  add_cases fuel1 ing1 collection1 file1 = Some (Ok n1, collection1') ->
  add_cases fuel2 ing2 collection2 file2 = Some (Ok n2, collection2') ->
  n1 <= n2 ->
  exists documents1 embeddings1 metadatas1 ids1 documents2 embeddings2 metadatas2 ids2,
    collection_add ing1 collection1 documents1 embeddings1 metadatas1 ids1
    = (Ok tt, collection1') /\
    collection_add ing2 collection2 documents2 embeddings2 metadatas2 ids2
    = (Ok tt, collection2') /\
    ids1 `prefix_of` ids2.
Proof.
  intros H1 H2 Hle.
  apply add_cases_handed in H1 as (cases1 & st1 & calls1 & _ & _ & Hadd1 & -> & W1).
  apply add_cases_handed in H2 as (cases2 & st2 & calls2 & _ & _ & Hadd2 & -> & W2).
  do 8 eexists. split; [exact Hadd1|]. split; [exact Hadd2|].
  destruct W1 as (_ & _ & _ & ->), W2 as (_ & _ & _ & ->).
  by apply expected_ids_prefix.
Qed.

Lemma add_loop_keys (fuel : nat) (ing : Ingest) (cases : list (gmap str str)) :
  forall (st : Staged) (calls : nat) (st' : Staged) (calls' : nat),
    add_loop fuel ing cases st calls = Some (Ok (st', calls')) ->
    Forall (fun case => is_Some (case !! u "title") /\
                        is_Some (case !! u "full_text")) cases.
Proof.
  induction cases as [|case rest IH]; intros st calls st' calls'; simpl; [by constructor|].
  destruct (getkey case (u "title")) as [t|] eqn:Ht; [|done].
  destruct (getkey case (u "full_text")) as [full_text|] eqn:Hft; [|done].
  destruct (_chunk_text fuel full_text 1000 200) as [[chunks|]|]; [|done..].
  destruct (add_chunks _ _ _ _ _ _ _) as [[st1 calls1]|]; [|done].
  intros H. constructor; [|by eapply IH].
  apply getkey_Ok in Ht, Hft. by split; eexists.
Qed.

(** X10: one case without a title or a full_text, anywhere in the file,
    and [add_cases] ends with an exception before [collection.add] is
    reached: the collection is as before, also the well-formed cases are not
    stored. *)
Theorem add_cases_malformed_case (fuel : nat) (ing : Ingest)
    (collection : list Entry) (cases_file : str) (cases : list (gmap str str))
    (case : gmap str str) (r : result Z) (collection' : list Entry) :
  read_cases ing cases_file = Ok cases ->
  case ∈ cases ->
  case !! u "title" = None \/ case !! u "full_text" = None ->
  add_cases fuel ing collection cases_file = Some (r, collection') ->
  (exists e, r = Raise e) /\ collection' = collection.
Proof.
  unfold add_cases. intros -> Hin Hbad.
  destruct (add_loop fuel ing cases nothing_staged 0) as [[[st calls]|e]|] eqn:E;
    [|intros [= <- <-]; eauto|done].
  apply add_loop_keys in E. rewrite Forall_forall in E.
  destruct (E case Hin) as [[? Ht] [? Hf]]. destruct Hbad; congruence.
Qed.

Lemma add_loop_returns (fuel : nat) (ing : Ingest) (cases : list (gmap str str)) :
  Forall (fun case => forall full_text,
            case !! u "full_text" = Some full_text ->
            len full_text <= Z.of_nat fuel) cases ->
  forall (st : Staged) (calls : nat),
    exists r, add_loop fuel ing cases st calls = Some r.
Proof.
  induction 1 as [|case rest Hcase _ IH]; intros st calls; simpl; [by eexists|].
  destruct (getkey case (u "title")); [|by eexists].
  destruct (getkey case (u "full_text")) as [full_text|] eqn:Hft; [|by eexists].
  apply getkey_Ok in Hft.
  destruct (chunk_text_terminates full_text 1000 200 defaults_advance) as [chunks Hch].
  rewrite (Hch fuel) by by apply Hcase.
  destruct (add_chunks _ _ _ _ _ _ _) as [[st1 calls1]|]; [apply IH|by eexists].
Qed.

(** X11: [add_cases] comes to an end, returning or raising, once the fuel
    covers the longest full_text of the file: with its default parameters
    the chunker always advances. *)
Theorem add_cases_returns (fuel : nat) (ing : Ingest) (collection : list Entry)
    (cases_file : str) :
  (forall cases, read_cases ing cases_file = Ok cases ->
     Forall (fun case => forall full_text,
               case !! u "full_text" = Some full_text ->
               len full_text <= Z.of_nat fuel) cases) ->
  exists r collection',
    add_cases fuel ing collection cases_file = Some (r, collection').
Proof.
  intros Hfuel. unfold add_cases.
  destruct (read_cases ing cases_file) as [cases|]; [|by do 2 eexists].
  destruct (add_loop_returns fuel ing cases (Hfuel cases eq_refl) nothing_staged 0)
    as [[[st calls]|e] ->]; [|by do 2 eexists].
  destruct (collection_add _ _ _ _ _ _) as [[[]|] c]; by do 2 eexists.
Qed.




Lemma add_cases_batch_witness :
  exists documents embeddings metadatas ids,
    collection_add (sample_ingest hit_world two_cases) [] documents embeddings
      metadatas ids = (Ok tt, two_stored) /\
    len documents = 2 /\ len embeddings = 2 /\ len metadatas = 2 /\ len ids = 2 /\
    ids = expected_ids 2 /\ NoDup ids.
Proof.
  apply (add_cases_batch 1 (sample_ingest hit_world two_cases) [] (u "cases.json")).
  vm_compute. reflexivity.
Defined.

Lemma add_cases_provenance_witness :
  exists documents embeddings metadatas ids,
    collection_add (sample_ingest hit_world two_cases) [] documents embeddings
      metadatas ids = (Ok tt, two_stored) /\
    Forall2 (stored_from 1 two_cases) documents metadatas.
Proof.
  apply (add_cases_provenance 1 (sample_ingest hit_world two_cases) []
           (u "cases.json") 2).
  - reflexivity.
  - vm_compute. reflexivity.
Defined.

Lemma add_cases_ids_restart_witness :
  exists documents1 embeddings1 metadatas1 ids1 documents2 embeddings2 metadatas2 ids2,
    collection_add (sample_ingest hit_world two_cases) [] documents1 embeddings1
      metadatas1 ids1 = (Ok tt, two_stored) /\
    collection_add (sample_ingest hit_world two_cases) two_stored documents2
      embeddings2 metadatas2 ids2 = (Ok tt, two_stored ++ two_stored) /\
    ids1 `prefix_of` ids2.
Proof.
  apply (add_cases_ids_restart 1 1 (sample_ingest hit_world two_cases)
           (sample_ingest hit_world two_cases) [] two_stored
           (u "cases.json") (u "cases.json") 2 2).
  - vm_compute. reflexivity.
  - vm_compute. reflexivity.
  - lia.
Defined.

Lemma add_cases_malformed_case_witness :
  (exists e, Raise (u "'title'") = Raise (A := Z) e) /\ @nil Entry = [].
Proof.
  apply (add_cases_malformed_case 1
           (sample_ingest hit_world [sample_case (u "Text one."); untitled_case])
           [] (u "cases.json") [sample_case (u "Text one."); untitled_case]
           untitled_case).
  - reflexivity.
  - right. left.
  - left. vm_compute. reflexivity.
  - vm_compute. reflexivity.
Defined.

Lemma add_cases_returns_witness :
  exists r collection',
    add_cases 9 (sample_ingest hit_world two_cases) [] (u "cases.json")
    = Some (r, collection').
Proof.
  apply add_cases_returns. intros cases [= <-].
  repeat constructor; intros full_text [= <-]; vm_compute; discriminate.
Defined.


(** ** The conversation history in the prompt *)

Lemma length_join_le (sep : str) (parts : list str) :
  (length (join sep parts)
   <= sum_list_with (fun p => length p + length sep) parts)%nat.
Proof.
  induction parts as [|p ps IH]; [done|].
  destruct ps as [|p' ps]; [simpl; lia|].
  change (join sep (p :: p' :: ps)) with (p ++ sep ++ join sep (p' :: ps)).
  rewrite !length_app. simpl sum_list_with in *. lia.
Qed.

Lemma length_slice_to_le {A} (l : list A) (hi : Z) :
  0 <= hi -> (length (slice_to l hi) <= Z.to_nat hi)%nat.
Proof.
  intros Hhi. unfold slice_to, slice_bound.
  destruct (Z.ltb_spec hi 0) as [?|_]; [lia|]. rewrite length_take. lia.
Qed.

Lemma history_lines_length (ts : list Turn) :
  (sum_list_with (fun p => length p + length nl) (concat (map history_lines ts))
   <= sum_list_with (fun t => length (question t) + 224) ts)%nat.
Proof.
  induction ts as [|t ts IH]; [done|].
  change (concat (map history_lines (t :: ts)))
    with (history_lines t ++ concat (map history_lines ts)).
  rewrite sum_list_with_app.
  set (rest := sum_list_with (fun p : str => (length p + length nl)%nat)
                 (concat (map history_lines ts))) in *.
  unfold history_lines. cbn [sum_list_with]. rewrite !length_app.
  pose proof (length_slice_to_le (answer t) 200 ltac:(lia)) as Ha.
  change (length (u "Клиент: ")) with 8%nat.
  change (length (u "Ассистент: ")) with 11%nat.
  change (length (u "...")) with 3%nat.
  change (length nl) with 1%nat.
  lia.
Qed.

Lemma length_recent_le (sessions : gmap Key (list Turn)) (session_id : Key)
    (max_messages : Z) :
  0 < max_messages ->
  (length (recent sessions session_id max_messages) <= Z.to_nat max_messages)%nat.
Proof.
  intros Hm. rewrite recent_stored. unfold slice_from, slice_bound.
  destruct (Z.ltb_spec (- max_messages) 0) as [_|?]; [|lia].
  rewrite length_drop. unfold len. lia.
Qed.

(** X13: the history text put into a prompt renders at most
    [max_messages] turns and is at most 224 characters per turn longer than
    their questions together, however long the answers were. *)
Theorem history_bounded (sessions : gmap Key (list Turn)) (session_id : Key)
    (max_messages : Z) :
  0 < max_messages ->
  (length (recent sessions session_id max_messages) <= Z.to_nat max_messages)%nat /\
  (length (_get_session_history sessions session_id max_messages)
   <= sum_list_with (fun t => length (question t) + 224)
        (recent sessions session_id max_messages))%nat.
Proof.
  intros Hm. split; [by apply length_recent_le|].
  rewrite get_session_history_recent.
  etrans; [apply length_join_le|apply history_lines_length].
Qed.

Lemma history_bounded_witness :
  (length (recent (append_all fifteen ∅) (KStr (u "s")) 4) <= Z.to_nat 4)%nat /\
  (length (_get_session_history (append_all fifteen ∅) (KStr (u "s")) 4)
   <= sum_list_with (fun t => length (question t) + 224)
        (recent (append_all fifteen ∅) (KStr (u "s")) 4))%nat.
Proof. apply history_bounded. lia. Defined.

Lemma join_nonempty (sep p : str) (ps : list str) :
  p <> [] -> join sep (p :: ps) <> [].
Proof. intros Hp. destruct ps; simpl; [done|]. by destruct p. Qed.

Lemma history_nonempty (sessions : gmap Key (list Turn)) (session_id : Key)
    (t : Turn) (turns : list Turn) :
  sessions !! session_id = Some (t :: turns) ->
  _get_session_history sessions session_id 4 <> [].
Proof.
  intros E. unfold _get_session_history, recent. rewrite E.
  assert (Hne : slice_from (t :: turns) (Z.opp 4) <> []).
  { unfold slice_from, slice_bound. simpl (_ <? _). cbv iota.
    intros H. apply (f_equal length) in H. rewrite length_drop in H.
    unfold len in H. simpl in H. lia. }
  destruct (slice_from (t :: turns) (Z.opp 4)) as [|t' ts]; [done|].
  simpl map. simpl concat.
  change (history_lines t' ++ concat (map history_lines ts))
    with ((u "Клиент: " ++ question t')
          :: (u "Ассистент: " ++ slice_to (answer t') 200 ++ u "...")
          :: concat (map history_lines ts)).
  apply join_nonempty. discriminate.
Qed.

Lemma build_prompt_text (question context : str) (first : bool) (history : str) :
  _build_prompt question context first history
  = prompt_text context
      (if truthy history then nl ++ u "ИСТОРИЯ РАЗГОВОРА:" ++ nl ++ history ++ nl else [])
      question (if first then greeting_first else greeting_again).
Proof. unfold _build_prompt, prompt_text. exact eq_refl. Qed.

(** The two shapes of a prompt. *)
Lemma build_prompt_cases (sessions : gmap Key (list Turn)) (session_id : Key)
    (question context : str) :
  let stored := default [] (sessions !! session_id) in
  let history := _get_session_history sessions session_id 4 in
  let prompt :=
    _build_prompt question context (is_first_message sessions session_id) history in
  (stored = [] /\ history = [] /\
   prompt = prompt_text context [] question
              (u "Поприветствуй клиента в первом сообщении")) \/
  (stored <> [] /\ history <> [] /\
   prompt = prompt_text context
              (nl ++ u "ИСТОРИЯ РАЗГОВОРА:" ++ nl ++ history ++ nl) question
              (u "Не здоровайся повторно")).
Proof.
  cbv zeta. rewrite build_prompt_text.
  destruct (sessions !! session_id) as [[|t turns]|] eqn:E.
  - left. split; [reflexivity|].
    assert (H : _get_session_history sessions session_id 4 = []).
    { unfold _get_session_history, recent. rewrite E. reflexivity. }
    split; [exact H|]. rewrite H. unfold is_first_message. rewrite E.
    change (truthy (@nil N)) with false. change (len (@nil Turn) =? 0) with true.
    cbv iota. unfold greeting_first. reflexivity.
  - right. split; [discriminate|].
    pose proof (history_nonempty sessions session_id t turns E) as H.
    split; [exact H|]. unfold is_first_message. rewrite E.
    replace (len (t :: turns) =? 0) with false
      by (symmetry; apply Z.eqb_neq; unfold len; simpl length; lia).
    destruct (_get_session_history sessions session_id 4) as [|c h]; [by destruct H|].
    change (truthy (c :: h)) with true. cbv iota. unfold greeting_again. reflexivity.
  - left. split; [reflexivity|].
    assert (H : _get_session_history sessions session_id 4 = []).
    { unfold _get_session_history. rewrite E. reflexivity. }
    split; [exact H|]. rewrite H. unfold is_first_message. rewrite E.
    change (truthy (@nil N)) with false. cbv iota. unfold greeting_first. reflexivity.
Qed.

(** X14: when retrieval found something, [get_answer] sends the model one
    prompt and answers with what the model makes of it. That prompt holds the
    numbered context, the question and seven instructions; it asks for a
    greeting exactly when it carries no history section, which is exactly
    when the session holds no turn; otherwise it carries the history text
    under its heading and asks not to greet again. *)
Theorem greeting_iff_no_history (w : World) (question : str) (session_id : Key)
    (max_sources : Z) (fr : Frame) (r : SearchResult) (rs : list SearchResult) :
  search w (vectorstore (self fr)) question max_sources = Ok (r :: rs) ->
  let stored := default [] (sessions (self fr) !! session_id) in
  let history := _get_session_history (sessions (self fr)) session_id 4 in
  exists prompt : str,
    fst (get_answer w question session_id max_sources fr)
    = Ok (match generate_content w prompt with
          | Ok text => (strip text, _extract_sources (r :: rs))
          | Raise e => (error_prefix ++ e, [])
          end) /\
    ((stored = [] /\ history = [] /\
      prompt = prompt_text (_build_context (r :: rs)) [] question
                 (u "Поприветствуй клиента в первом сообщении")) \/
     (stored <> [] /\ history <> [] /\
      prompt = prompt_text (_build_context (r :: rs))
                 (nl ++ u "ИСТОРИЯ РАЗГОВОРА:" ++ nl ++ history ++ nl) question
                 (u "Не здоровайся повторно"))).
Proof.
  intros Hsearch. cbv zeta.
  exists (prompt_of fr question session_id (r :: rs)). split.
  - destruct (get_answer_run w question session_id max_sources fr)
      as (answer & sources & fl & -> & Hrun).
    rewrite Hsearch in Hrun. destruct Hrun as [_ Hrun]. cbn [fst].
    destruct (generate_content w _) as [text|e]; destruct Hrun as [-> ->]; reflexivity.
  - unfold prompt_of.
    exact (build_prompt_cases (sessions (self fr)) session_id question
             (_build_context (r :: rs))).
Qed.

Lemma greeting_iff_no_history_witness :
  let stored := default [] (sessions (self talked) !! KStr (u "s")) in
  let history := _get_session_history (sessions (self talked)) (KStr (u "s")) 4 in
  exists prompt : str,
    fst (get_answer hit_world (u "Hello?") (KStr (u "s")) 5 talked)
    = Ok (match generate_content hit_world prompt with
          | Ok text => (strip text, _extract_sources (sample_result :: []))
          | Raise e => (error_prefix ++ e, [])
          end) /\
    ((stored = [] /\ history = [] /\
      prompt = prompt_text (_build_context (sample_result :: [])) [] (u "Hello?")
                 (u "Поприветствуй клиента в первом сообщении")) \/
     (stored <> [] /\ history <> [] /\
      prompt = prompt_text (_build_context (sample_result :: []))
                 (nl ++ u "ИСТОРИЯ РАЗГОВОРА:" ++ nl ++ history ++ nl) (u "Hello?")
                 (u "Не здоровайся повторно"))).
Proof.
  apply (greeting_iff_no_history hit_world (u "Hello?") (KStr (u "s")) 5 talked
           sample_result []).
  vm_compute. reflexivity.
Defined.

(** ** Citations, one result more *)

Lemma extract_loop_snoc (rs : list SearchResult) (r : SearchResult) :
  forall seen : gset str,
    extract_loop (rs ++ [r]) [] seen
    = extract_loop rs [] seen
      ++ (if decide (url (metadata r) ∈ seen \/ url (metadata r) ∈ urls_of rs)
          then [] else [cite r]).
Proof.
  induction rs as [|r0 rs IH]; intros seen.
  - simpl. destruct (decide (url (metadata r) ∈ seen)) as [Hin|Hout].
    + rewrite decide_True by by left. done.
    + rewrite decide_False; [done|]. intros [?|?%elem_of_nil]; done.
  - change ((r0 :: rs) ++ [r]) with (r0 :: (rs ++ [r])).
    rewrite !extract_loop_cons.
    destruct (decide (url (metadata r0) ∈ seen)) as [Hin|Hout].
    + rewrite IH. f_equal. apply decide_ext.
      unfold urls_of. csimpl. rewrite elem_of_cons. split; [tauto|].
      intros [?|[->|?]]; tauto.
    + rewrite IH. simpl. f_equal. f_equal. apply decide_ext.
      unfold urls_of. csimpl. rewrite elem_of_cons, elem_of_union, elem_of_singleton.
      tauto.
Qed.

(** X15: one more search result at the end of the list adds its citation
    at the end when its url is new, and changes nothing when an earlier
    result has the same url. *)
Theorem extract_sources_snoc (rs : list SearchResult) (r : SearchResult) :
  _extract_sources (rs ++ [r])
  = if decide (url (metadata r) ∈ urls_of rs)
    then _extract_sources rs
    else _extract_sources rs ++ [cite r].
Proof.
  unfold _extract_sources. rewrite extract_loop_snoc.
  destruct (decide (url (metadata r) ∈ urls_of rs)) as [Hin|Hout].
  - rewrite decide_True by by right. by rewrite app_nil_r.
  - rewrite decide_False; [done|]. intros [?%elem_of_empty|?]; done.
Qed.

(** ** What a conversation leaves in memory *)

Lemma serve_told (requests : list Request) :
  forall service : EoraRAGService,
    Forall (fun rep => exists answer sources, reply rep = Ok (answer, sources))
      (fst (serve service requests)) /\
    length (fst (serve service requests)) = length requests /\
    vectorstore (snd (serve service requests)) = vectorstore service /\
    sessions (snd (serve service requests))
    = append_all (told requests (fst (serve service requests))) (sessions service).
Proof.
  induction requests as [|r rest IH]; intros service; [by repeat split|].
  simpl.
  destruct (get_answer_run (req_world r) (req_question r) (req_session r)
              (req_max_sources r) {| self := service; flags := [] |})
    as (answer & sources & fl & -> & _).
  simpl. destruct (serve _ rest) as [replies service'] eqn:Hserve.
  specialize (IH {| vectorstore := vectorstore service;
                    sessions := _save_to_session (time_time (req_world r))
                                  (sessions service) (req_session r)
                                  (req_question r) answer |}).
  rewrite Hserve in IH. simpl in IH. destruct IH as (Hok & Hlen & Hvs & Hss).
  simpl. split; [constructor; [by eexists _, _|done]|].
  split; [by rewrite Hlen|]. split; [done|]. exact Hss.
Qed.

(** X16: over any sequence of requests served from a fresh service, no
    exception reaches the caller, the index is never changed, and the
    service remembers exactly what it told: the list stored for a session is
    the (question, returned answer) pairs of its requests, in order, without
    all but the last 10. *)
Theorem serve_remembers (collection : list Entry) (requests : list Request)
    (session_id : Key) :
  let replies := fst (serve (fresh collection) requests) in
  let service := snd (serve (fresh collection) requests) in
  let all := appended session_id (told requests replies) in
  Forall (fun rep => exists answer sources, reply rep = Ok (answer, sources)) replies /\
  length replies = length requests /\
  vectorstore service = collection /\
  default [] (sessions service !! session_id) = drop (length all - 10) all.
Proof.
  cbv zeta. destruct (serve_told requests (fresh collection)) as (Hok & Hlen & Hvs & Hss).
  split; [done|]. split; [done|]. split; [done|].
  rewrite Hss. apply append_all_stored.
Qed.

(** ** The HTTP handler *)

Lemma no_members (d : gmap str Json) (key : str) (v : Json) :
  truthy (map_to_list d) = false -> d !! key = Some v -> False.
Proof.
  destruct (map_to_list d) as [|x l] eqn:E; [|done]. intros _.
  apply map_to_list_empty_iff in E. subst d. by rewrite lookup_empty.
Qed.

(** A path that ends without status 200 and for a body that is no object
    with a question. *)
Ltac rejected :=
  left; split; [done|]; split; [by eexists|]; split; [done|];
  intros; simplify_eq.

(** Every path of [ask_question]. *)
Lemma ask_question_run (w : World) (req : HttpRequest) (service : EoraRAGService) :
  (status (fst (ask_question w req service)) <> 200 /\
   (exists e, body (fst (ask_question w req service)) = ErrorBody e) /\
   snd (ask_question w req service) = service /\
   forall d text key,
     get_json req = Ok (JObject d) -> d !! u "question" = Some (JString text) ->
     key_of (default (JString (default_session (remote_addr req)))
               (d !! u "session_id")) = Some key ->
     strip text = [] \/ 1000 < len (strip text)) \/
  (exists d text key answer sources,
     get_json req = Ok (JObject d) /\ d !! u "question" = Some (JString text) /\
     key_of (default (JString (default_session (remote_addr req)))
               (d !! u "session_id")) = Some key /\
     admissible (strip text) /\
     fst (ask_question w req service)
     = {| status := 200;
          body := AnswerBody (strip text) answer sources
                    (default (JString (default_session (remote_addr req)))
                       (d !! u "session_id")) |} /\
     fst (get_answer w (strip text) key 5 {| self := service; flags := [] |})
     = Ok (answer, sources) /\
     vectorstore (snd (ask_question w req service)) = vectorstore service /\
     sessions (snd (ask_question w req service))
     = _save_to_session (time_time w) (sessions service) key (strip text) answer).
Proof.
  unfold ask_question, ask_question_try, bind, call, respond, ret, no_question.
  destruct (get_json req) as [data|e] eqn:Hjson;
    [|left; split; [done|]; split; [by eexists|]; split; [done|]; done].
  destruct data as [|b|z|f|s|items|d]; cbn -[u strip contains existsb].
  - rejected.
  - destruct b; cbn -[u]; rejected.
  - destruct (z =? 0); cbn -[u]; rejected.
  - destruct (PrimFloat.eqb f PrimFloat.zero); cbn -[u]; rejected.
  - destruct (truthy s); cbn -[u contains]; [|rejected].
    destruct (contains (u "question") s); cbn -[u]; rejected.
  - destruct (truthy items); cbn -[u existsb]; [|rejected].
    destruct (existsb _ items); cbn -[u]; rejected.
  - idtac.
  destruct (truthy (map_to_list d)) eqn:Hd; cbn -[u strip].
  2:{ left. split; [done|]. split; [by eexists|]. split; [done|].
      intros d' text key [= <-] Hq _. by destruct (no_members d _ _ Hd Hq). }
  destruct (d !! u "question") as [value|] eqn:Hq; cbn -[u strip].
  2:{ left. split; [done|]. split; [by eexists|]. split; [done|].
      intros d' text key [= <-]. by rewrite Hq. }
  destruct value as [|b|z|f|text|items|d'];
    try (cbn -[u strip]; left; split; [done|]; split; [by eexists|]; split; [done|];
         intros d'' text' key [= <-]; by rewrite Hq).
  cbn -[u strip].
  destruct (strip text) as [|c q] eqn:Hstrip; cbn -[u strip].
  { left. split; [done|]. split; [by eexists|]. split; [done|].
    intros d' t key [= <-]. rewrite Hq. intros [= <-]. rewrite Hstrip. by left. }
  destruct (Z.ltb_spec 1000 (len (c :: q))) as [Hlong|Hok]; cbn -[u strip].
  { left. split; [done|]. split; [by eexists|]. split; [done|].
    intros d' t key [= <-]. rewrite Hq. intros [= <-]. rewrite Hstrip. by right. }
  unfold get_answer_of.
  change (match d !! u "session_id" with
          | Some value => value
          | None => JString (default_session (remote_addr req))
          end)
    with (default (JString (default_session (remote_addr req))) (d !! u "session_id")).
  set (sid := default (JString (default_session (remote_addr req))) (d !! u "session_id")).
  destruct (key_of sid) as [key|] eqn:Hkey; cbn -[u strip].
  2:{ left. split; [done|]. split; [by eexists|]. split; [done|].
      intros d' t key [= <-] _. fold sid. by rewrite Hkey. }
  right.
  destruct (get_answer_run w (c :: q) key 5 {| self := service; flags := [] |})
    as (answer & sources & fl & Hrun & _).
  rewrite Hrun. cbn -[u strip]. exists d, text, key, answer, sources.
  split; [done|]. split; [done|]. split; [done|]. rewrite Hstrip.
  split; [|by rewrite Hrun].
  split; [done|]. split; [|done]. rewrite <- Hstrip. apply strip_fixed.
Qed.

(** X17: a request that is not answered with status 200 gets an error
    body and leaves the service as it was: nothing is recorded for a missing,
    blank or oversized question, for a body that is not JSON or not an
    object, for a question that is not a string, or for a session_id that
    cannot be a key. *)
Theorem ask_question_rejected (w : World) (req : HttpRequest)
    (service : EoraRAGService) :
  status (fst (ask_question w req service)) <> 200 ->
  (exists e, body (fst (ask_question w req service)) = ErrorBody e) /\
  snd (ask_question w req service) = service.
Proof.
  intros Hst.
  destruct (ask_question_run w req service)
    as [(_ & Hb & Hs & _)|(d & text & key & answer & sources & _ & _ & _ & _ & Hr & _)];
    [done|].
  by rewrite Hr in Hst.
Qed.

(** X18: a request is answered with status 200 exactly when its body is
    a JSON object whose question is a string that, once trimmed, is not empty
    and has at most 1000 characters, and whose session_id, if it has one, is
    neither a list nor an object. The session is the value of the body's
    session_id whenever that key is present, null included, and else the
    client address, and "default" when there is none; the trimmed question
    is what [get_answer] receives, what the response echoes and what that
    session records, and the session_id is echoed as it was sent. A valid
    question sent with a list as session_id is answered with status 500. *)
Theorem ask_question_accepted (w : World) (req : HttpRequest)
    (service : EoraRAGService) :
  (status (fst (ask_question w req service)) = 200 <->
   exists d text,
     get_json req = Ok (JObject d) /\ d !! u "question" = Some (JString text) /\
     strip text <> [] /\ len (strip text) <= 1000 /\
     (forall v, d !! u "session_id" = Some v ->
                (forall items, v <> JArray items) /\ (forall d', v <> JObject d'))) /\
  (forall d text session_id key,
     get_json req = Ok (JObject d) -> d !! u "question" = Some (JString text) ->
     strip text <> [] -> len (strip text) <= 1000 ->
     session_id = match d !! u "session_id" with
                  | Some v => v
                  | None =>
                      match remote_addr req with
                      | Some (c :: a) => JString (c :: a)
                      | _ => JString (u "default")
                      end
                  end ->
     key_of session_id = Some key ->
     exists answer sources,
       fst (get_answer w (strip text) key 5 {| self := service; flags := [] |})
       = Ok (answer, sources) /\
       fst (ask_question w req service)
       = {| status := 200;
            body := AnswerBody (strip text) answer sources session_id |} /\
       sessions (snd (ask_question w req service))
       = _save_to_session (time_time w) (sessions service) key (strip text) answer) /\
  (forall d text items,
     get_json req = Ok (JObject d) -> d !! u "question" = Some (JString text) ->
     strip text <> [] -> len (strip text) <= 1000 ->
     d !! u "session_id" = Some (JArray items) ->
     status (fst (ask_question w req service)) = 500).
Proof.
  assert (Hsid : forall d : gmap str Json,
            default (JString (default_session (remote_addr req))) (d !! u "session_id")
            = match d !! u "session_id" with
              | Some v => v
              | None =>
                  match remote_addr req with
                  | Some (c :: a) => JString (c :: a)
                  | _ => JString (u "default")
                  end
              end).
  { intros d. destruct (d !! u "session_id"); [done|].
    unfold default_session. by destruct (remote_addr req) as [[|c a]|]. }
  assert (Hhash : forall d : gmap str Json,
            is_Some (key_of (default (JString (default_session (remote_addr req)))
                               (d !! u "session_id")))
            <-> forall v, d !! u "session_id" = Some v ->
                          (forall items, v <> JArray items) /\
                          (forall d', v <> JObject d')).
  { intros d. destruct (d !! u "session_id") as [v|]; simpl.
    - split.
      + intros [k Hk] v' [= <-]. split; intros ? ->; done.
      + intros H. destruct (H v eq_refl) as [H1 H2].
        destruct v; try (by eexists); [by destruct (H1 items)|by destruct (H2 members)].
    - split; [done|]. intros _. by eexists. }
  assert (Hlist : forall d text items,
            get_json req = Ok (JObject d) -> d !! u "question" = Some (JString text) ->
            strip text <> [] -> len (strip text) <= 1000 ->
            d !! u "session_id" = Some (JArray items) ->
            status (fst (ask_question w req service)) = 500).
  { intros d text items Hj Hq Hne Hlen Hs.
    unfold ask_question, ask_question_try, bind, call, respond, ret, no_question.
    rewrite Hj. cbn -[u strip].
    destruct (truthy (map_to_list d)) eqn:Hd; cbn -[u strip];
      [|by destruct (no_members d _ _ Hd Hq)].
    rewrite Hq. cbn -[u strip].
    destruct (strip text) as [|c q] eqn:Hstrip; [done|]. cbn -[u strip].
    destruct (Z.ltb_spec 1000 (len (c :: q))) as [?|_]; [lia|]. cbn -[u strip].
    unfold get_answer_of. rewrite Hs. reflexivity. }
  destruct (ask_question_run w req service)
    as [(Hst & Hb & _ & Hbad)
       |(d & text & key & answer & sources & Hj & Hq & Hk & (Hne & _ & Hlen)
         & Hr & Hget & _ & Hs)].
  - split; [|split].
    + split; [done|]. intros (d & text & Hj & Hq & Hne & Hlen & Hv).
      apply Hhash in Hv as [key Hk].
      destruct (Hbad d text key Hj Hq Hk); [done|lia].
    + intros d text session_id key Hj Hq Hne Hlen -> Hk. rewrite <- Hsid in Hk.
      destruct (Hbad d text key Hj Hq Hk); [done|lia].
    + exact Hlist.
  - split; [|split].
    + rewrite Hr. split; [|done]. intros _. exists d, text.
      split; [done|]. split; [done|]. split; [done|]. split; [done|].
      apply Hhash. by eexists.
    + intros d' text' session_id key' Hj' Hq' _ _ -> Hk'.
      rewrite Hj in Hj'. injection Hj' as <-.
      rewrite Hq in Hq'. injection Hq' as <-.
      rewrite <- Hsid in Hk'. rewrite Hk in Hk'. injection Hk' as <-.
      rewrite <- Hsid. by exists answer, sources.
    + exact Hlist.
Qed.

(** ** Everything recorded came through the handler *)

Lemma save_all_turns (P : Turn -> Prop) (now : float)
    (sessions : gmap Key (list Turn)) (session_id : Key) (question answer : str) :
  (forall sid turns, sessions !! sid = Some turns -> Forall P turns) ->
  P {| question := question; answer := answer; timestamp := now |} ->
  forall sid turns,
    _save_to_session now sessions session_id question answer !! sid = Some turns ->
    Forall P turns.
Proof.
  intros Hall Hnew sid turns. destruct (decide (sid = session_id)) as [->|Hne].
  - rewrite save_lookup. cbv zeta. intros [= <-]. apply Forall_drop, Forall_app.
    split; [|by constructor].
    destruct (sessions !! session_id) as [old|] eqn:E; simpl; [by eapply Hall|constructor].
  - rewrite save_lookup_other by done. apply Hall.
Qed.

Lemma handle_admissible (calls : list Call) :
  forall service : EoraRAGService,
    (forall sid turns, sessions service !! sid = Some turns ->
                       Forall (fun t => admissible (question t)) turns) ->
    forall sid turns,
      sessions (snd (handle service calls)) !! sid = Some turns ->
      Forall (fun t => admissible (question t)) turns.
Proof.
  induction calls as [|c rest IH]; intros service Hinv; [done|].
  simpl. destruct (ask_question (call_world c) (call_request c) service)
    as [response service1] eqn:Ha.
  destruct (handle service1 rest) as [responses service2] eqn:Hh. simpl.
  specialize (IH service1). rewrite Hh in IH. simpl in IH. apply IH.
  destruct (ask_question_run (call_world c) (call_request c) service)
    as [(_ & _ & Hs & _)
       |(d & text & key & answer & sources & _ & _ & _ & Hadm & _ & _ & _ & Hs)];
    rewrite Ha in Hs; simpl in Hs.
  - by subst service1.
  - rewrite Hs. by apply save_all_turns.
Qed.

Lemma sum_list_with_bound {A} (f : A -> nat) (c : nat) (l : list A) :
  Forall (fun x => (f x <= c)%nat) l -> (sum_list_with f l <= c * length l)%nat.
Proof. induction 1; simpl; lia. Qed.

(** X19: in a service that is driven through the HTTP handler from its
    start, every recorded question is trimmed, not empty and at most 1000
    characters long, and so the history text of any prompt has at most 4896
    characters. *)
Theorem handle_history_bounded (collection : list Entry) (calls : list Call)
    (session_id : Key) :
  let service := snd (handle (fresh collection) calls) in
  (forall turns, sessions service !! session_id = Some turns ->
                 Forall (fun t => admissible (question t)) turns) /\
  (length (_get_session_history (sessions service) session_id 4) <= 4896)%nat.
Proof.
  cbv zeta.
  assert (Hinv : forall sid turns,
            sessions (snd (handle (fresh collection) calls)) !! sid = Some turns ->
            Forall (fun t => admissible (question t)) turns).
  { apply handle_admissible. intros sid turns. simpl. by rewrite lookup_empty. }
  split; [apply Hinv|].
  set (ss := sessions (snd (handle (fresh collection) calls))) in *.
  rewrite get_session_history_recent.
  etrans; [apply length_join_le|]. etrans; [apply history_lines_length|].
  etrans; [apply (sum_list_with_bound _ 1224)|].
  - rewrite recent_stored. unfold slice_from.
    destruct (ss !! session_id) as [turns|] eqn:E; simpl; [|constructor].
    apply Forall_drop. eapply Forall_impl; [by apply (Hinv session_id)|].
    intros t (_ & _ & Hlen). simpl. unfold len in Hlen. lia.
  - pose proof (length_recent_le ss session_id 4 ltac:(lia)). lia.
Qed.

(** ** The content kept from a page *)

Lemma insert_by_len_perm (x : str) (l : list str) : insert_by_len x l ≡ₚ x :: l.
Proof.
  induction l as [|y l IH]; simpl; [done|].
  destruct (len y <=? len x); [done|]. rewrite IH. apply Permutation_swap.
Qed.

Lemma sort_by_len_perm (l : list str) : sort_by_len l ≡ₚ l.
Proof.
  induction l as [|x l IH]; simpl; [done|]. by rewrite insert_by_len_perm, IH.
Qed.

Lemma insert_by_len_sorted (x : str) (l : list str) :
  StronglySorted (fun a b => len b <= len a) l ->
  StronglySorted (fun a b => len b <= len a) (insert_by_len x l).
Proof.
  induction 1 as [|y l Hl IH Hy]; simpl; [repeat constructor|].
  destruct (Z.leb_spec (len y) (len x)) as [Hle|Hgt].
  - constructor; [by constructor|]. constructor; [done|].
    eapply Forall_impl; [exact Hy|]. simpl. lia.
  - constructor; [done|]. rewrite insert_by_len_perm. constructor; [lia|done].
Qed.

Lemma sort_by_len_sorted (l : list str) :
  StronglySorted (fun a b => len b <= len a) (sort_by_len l).
Proof.
  induction l as [|x l IH]; simpl; [constructor|]. by apply insert_by_len_sorted.
Qed.

Lemma elem_of_fromkeys (l : list str) : forall (seen : list str) (x : str),
  x ∈ fromkeys seen l <-> x ∈ l /\ x ∉ seen.
Proof.
  induction l as [|y l IH]; intros seen x; simpl.
  - split; [by intros ?%elem_of_nil|by intros [?%elem_of_nil _]].
  - destruct (decide (y ∈ seen)) as [Hin|Hout].
    + rewrite IH, elem_of_cons. split; [tauto|]. intros [[->|?] ?]; tauto.
    + rewrite !elem_of_cons, IH, elem_of_cons. split.
      * intros [->|[? ?]]; tauto.
      * intros [[->|?] ?]; [tauto|]. destruct (decide (x = y)); tauto.
Qed.

Lemma fromkeys_NoDup (l : list str) : forall seen : list str, NoDup (fromkeys seen l).
Proof.
  induction l as [|y l IH]; intros seen; simpl; [constructor|].
  destruct (decide (y ∈ seen)); [apply IH|]. constructor; [|apply IH].
  rewrite elem_of_fromkeys, elem_of_cons. tauto.
Qed.

Lemma slice_to_take {A} (l : list A) (hi : Z) :
  0 <= hi -> slice_to l hi = take (Z.to_nat hi) l.
Proof.
  intros Hhi. unfold slice_to, slice_bound.
  destruct (Z.ltb_spec hi 0) as [?|_]; [lia|].
  destruct (Z.le_gt_cases hi (len l)) as [H|H].
  - by rewrite Z.min_l by lia.
  - rewrite Z.min_r by lia. rewrite !take_ge; unfold len in *; [done|lia..].
Qed.

(** X20: of the texts of a page, [_extract_content] joins at most five:
    pairwise different ones, each longer than 30 characters and passing the
    word filter, longest first; a text that passes the filter and is left out
    is no longer than any of the five kept. *)
Theorem extract_content_selection (lower : str -> str) (texts : list str) :
  let kept_parts := selected_parts lower texts in
  _extract_content lower texts = join (nl ++ nl) kept_parts /\
  (length kept_parts <= 5)%nat /\
  NoDup kept_parts /\
  StronglySorted (fun a b => len b <= len a) kept_parts /\
  (forall p, p ∈ kept_parts ->
     p ∈ texts /\ 30 < len p /\ worth_keeping lower p = true) /\
  (forall q, q ∈ texts -> worth_keeping lower q = true -> q ∉ kept_parts ->
     length kept_parts = 5%nat /\ forall p, p ∈ kept_parts -> len q <= len p).
Proof.
  cbv zeta. unfold _extract_content, selected_parts.
  rewrite slice_to_take by lia. change (Z.to_nat 5) with 5%nat.
  set (parts := filter (fun t => worth_keeping lower t = true) texts).
  set (sorted := sort_by_len (fromkeys [] parts)).
  assert (Hin : forall p, p ∈ sorted <-> p ∈ texts /\ worth_keeping lower p = true).
  { intros p. unfold sorted. rewrite sort_by_len_perm, elem_of_fromkeys.
    unfold parts. rewrite list_elem_of_filter. split; [tauto|].
    intros [? ?]. split; [done|apply not_elem_of_nil]. }
  assert (Hsorted : StronglySorted (fun a b => len b <= len a) sorted)
    by apply sort_by_len_sorted.
  rewrite <- (take_drop 5 sorted) in Hsorted.
  split; [done|split; [|split; [|split; [|split]]]].
  - rewrite length_take. lia.
  - apply (NoDup_app (take 5 sorted) (drop 5 sorted)).
    rewrite take_drop. unfold sorted. rewrite sort_by_len_perm. apply fromkeys_NoDup.
  - by apply StronglySorted_app_1_l in Hsorted.
  - intros p Hp. apply elem_of_take in Hp as (i & Hp & _).
    apply list_elem_of_lookup_2, Hin in Hp as [? Hk]. split; [done|]. split; [|done].
    unfold worth_keeping in Hk. apply andb_true_iff in Hk as [Hk _].
    apply andb_true_iff in Hk as [Hk _]. by apply Z.ltb_lt.
  - intros q Hq Hk Hout.
    assert (Hq' : q ∈ sorted) by (by apply Hin).
    rewrite <- (take_drop 5 sorted), elem_of_app in Hq'.
    destruct Hq' as [?|Hdrop]; [done|].
    split.
    + apply list_elem_of_lookup in Hdrop as [i Hi].
      apply lookup_lt_Some in Hi. rewrite length_drop in Hi.
      rewrite length_take. lia.
    + intros p Hp. by apply (StronglySorted_app_1_elem_of _ _ _ _ _ Hsorted).
Qed.

Lemma ask_question_rejected_witness :
  (exists e, body (fst (ask_question hit_world blank_request (fresh []))) = ErrorBody e) /\
  snd (ask_question hit_world blank_request (fresh [])) = fresh [].
Proof. apply ask_question_rejected. vm_compute. discriminate. Defined.

Lemma ask_question_accepted_witness :
  exists answer sources,
    fst (get_answer hit_world (strip (u "hi")) KNone 5
           {| self := fresh []; flags := [] |}) = Ok (answer, sources) /\
    fst (ask_question hit_world null_session_request (fresh []))
    = {| status := 200;
         body := AnswerBody (strip (u "hi")) answer sources JNull |} /\
    sessions (snd (ask_question hit_world null_session_request (fresh [])))
    = _save_to_session (time_time hit_world) (sessions (fresh [])) KNone
        (strip (u "hi")) answer.
Proof.
  apply (proj1 (proj2 (ask_question_accepted hit_world null_session_request (fresh [])))
           null_session_body (u "hi") JNull KNone).
  - reflexivity.
  - vm_compute. reflexivity.
  - vm_compute. discriminate.
  - vm_compute. discriminate.
  - vm_compute. reflexivity.
  - reflexivity.
Defined.

(** A proper question sent with a list as session_id: status 500, nothing
    recorded. A null session_id is a session of its own. *)
Example ask_question_list_session :
  ask_question hit_world list_session_request (fresh []) = (internal_error, fresh []) /\
  status (fst (ask_question hit_world null_session_request (fresh []))) = 200 /\
  (question <$> default [] (sessions (snd (ask_question hit_world null_session_request
                                             (fresh []))) !! KNone)) = [u "hi"].
Proof. vm_compute. repeat split. Qed.

(** Session ids that are equal as Python values are one key. *)
Example equal_session_ids :
  key_of (JBool true) = key_of (JInt 1) /\
  key_of (JFloat PrimFloat.one) = key_of (JInt 1) /\
  key_of (JFloat (PrimFloat.opp PrimFloat.zero)) = key_of (JInt 0) /\
  key_of (JFloat (PrimFloat.div PrimFloat.one (PrimFloat.add PrimFloat.one PrimFloat.one))) <> key_of (JInt 0) /\
  key_of (JString (u "1")) <> key_of (JInt 1).
Proof. vm_compute. repeat split; discriminate. Qed.

Lemma handle_history_bounded_witness :
  let service :=
    snd (handle (fresh [])
           [{| call_world := hit_world; call_request := good_request |};
            {| call_world := hit_world; call_request := blank_request |}]) in
  (forall turns, sessions service !! KStr (u "10.0.0.1") = Some turns ->
                 Forall (fun t => admissible (question t)) turns) /\
  (length (_get_session_history (sessions service) (KStr (u "10.0.0.1")) 4) <= 4896)%nat.
Proof. apply handle_history_bounded. Defined.

Example handle_two_requests :
  status <$> fst (handle (fresh [])
                    [{| call_world := hit_world; call_request := good_request |};
                     {| call_world := hit_world; call_request := blank_request |}])
  = [200; 400].
Proof. vm_compute. reflexivity. Qed.

Lemma extract_content_selection_witness :
  let kept_parts := selected_parts (fun s => s) sample_texts in
  _extract_content (fun s => s) sample_texts = join (nl ++ nl) kept_parts /\
  (length kept_parts <= 5)%nat /\
  NoDup kept_parts /\
  StronglySorted (fun a b => len b <= len a) kept_parts /\
  (forall p, p ∈ kept_parts ->
     p ∈ sample_texts /\ 30 < len p /\ worth_keeping (fun s => s) p = true) /\
  (forall q, q ∈ sample_texts -> worth_keeping (fun s => s) q = true -> q ∉ kept_parts ->
     length kept_parts = 5%nat /\ forall p, p ∈ kept_parts -> len q <= len p).
Proof. apply extract_content_selection. Defined.

Example extract_content_sample :
  selected_parts (fun s => s) sample_texts
  = [u "The bot answers the questions of candidates around the clock, every day.";
     u "EORA builds a chat bot that invites candidates to interviews."].
Proof. vm_compute. reflexivity. Qed.

Example add_cases_sample :
  fst <$> add_cases 1 (sample_ingest hit_world two_cases) [] (u "cases.json")
  = Some (Ok 2) /\
  entry_id <$> two_stored = [u "case_1_0"; u "case_2_1"].
Proof. vm_compute. split; reflexivity. Qed.

Example serve_remembers_sample :
  question <$> default [] (sessions (snd (serve (fresh [])
                                            [request silent_world (u "q1") (KStr (u "s"));
                                             request hit_world (u "q2") (KStr (u "s"))]))
                           !! KStr (u "s"))
  = [u "q1"; u "q2"].
Proof. vm_compute. reflexivity. Qed.

(** ** Citations and context blocks *)

Lemma extract_loop_distinct (rs : list SearchResult) :
  forall seen : gset str,
    NoDup (urls_of rs) -> (forall x, x ∈ urls_of rs -> x ∉ seen) ->
    extract_loop rs [] seen = cite <$> rs.
Proof.
  induction rs as [|r rs IH]; intros seen Hnd Hseen; [done|].
  unfold urls_of in Hnd, Hseen. rewrite fmap_cons in Hnd, Hseen.
  apply NoDup_cons in Hnd as [Hr Hnd].
  rewrite extract_loop_cons, decide_False by (apply Hseen; by left).
  rewrite fmap_cons. f_equal. apply IH; [done|].
  intros x Hx [->%elem_of_singleton|Hs]%elem_of_union; [done|].
  apply (Hseen x); [by right|done].
Qed.

Lemma imap_zip_cite (f : nat -> SearchResult * Source -> str) (rs : list SearchResult) :
  imap f (zip rs (cite <$> rs)) = imap (fun i r => f i (r, cite r)) rs.
Proof.
  revert f. induction rs as [|r rs IH]; intros f; [done|].
  csimpl. f_equal. apply IH.
Qed.

Lemma extract_sources_length_NoDup (rs : list SearchResult) :
  length (_extract_sources rs) = length rs -> NoDup (urls_of rs).
Proof.
  intros Hlen. pose proof (extract_loop_NoDup rs ∅) as Hnd.
  fold (_extract_sources rs) in Hnd.
  assert (Hsub : (source_url <$> _extract_sources rs) ⊆+ urls_of rs).
  { apply NoDup_submseteq; [done|]. intros x Hx.
    unfold _extract_sources in Hx. apply extract_loop_urls in Hx as (_ & r & Hr & <-).
    unfold urls_of. apply list_elem_of_fmap. by exists r. }
  apply submseteq_length_Permutation in Hsub.
  - by rewrite <- Hsub.
  - unfold urls_of. rewrite !length_fmap. lia.
Qed.

(** X21: exactly when no two results share a url there is one citation per
    result, and then the citations follow the numbering of the context built
    for the prompt: the block numbered i shows the title, the url and the
    description of the i-th citation, with the content of the i-th result. *)
Theorem extract_sources_one_for_one (rs : list SearchResult) :
  NoDup (urls_of rs) <->
  length (_extract_sources rs) = length rs /\
  _build_context rs
  = join nl (imap (fun i p => numbered_block (Z.of_nat i + 1) (snd p) (content (fst p)))
               (zip rs (_extract_sources rs))).
Proof.
  split.
  - intros Hnd.
    assert (Heq : _extract_sources rs = cite <$> rs).
    { apply extract_loop_distinct; [done|]. intros x _. apply not_elem_of_empty. }
    rewrite Heq. split; [by rewrite length_fmap|].
    by rewrite imap_zip_cite.
  - intros [Hlen _]. by apply extract_sources_length_NoDup.
Qed.

(** ** Clients behind one address *)

Lemma recent_after_save (now : float) (sessions : gmap Key (list Turn))
    (session_id : Key) (question answer : str) :
  last (recent (_save_to_session now sessions session_id question answer) session_id 4)
  = Some {| question := question; answer := answer; timestamp := now |}.
Proof.
  unfold recent. rewrite save_lookup_snoc. cbv zeta.
  set (old := drop _ _). unfold slice_from, slice_bound.
  change (- (4) <? 0) with true. cbv iota.
  rewrite drop_app_le by (unfold len; rewrite length_app; simpl; lia).
  apply last_snoc.
Qed.

(** X22: two requests that carry no session_id and come from the same
    address use the same session, the one named by the address: once the
    first is answered, its question and answer are the latest turn of the
    history the second one's prompt is built from. *)
Theorem same_address_same_history (w : World) (req1 req2 : HttpRequest)
    (service : EoraRAGService) (d1 d2 : gmap str Json) (text : str) :
  get_json req1 = Ok (JObject d1) -> get_json req2 = Ok (JObject d2) ->
  d1 !! u "session_id" = None -> d2 !! u "session_id" = None ->
  remote_addr req1 = remote_addr req2 ->
  d1 !! u "question" = Some (JString text) -> strip text <> [] -> len (strip text) <= 1000 ->
  exists (answer : str) (sources : list Source) (session_id : Json) (key : Key),
    session_of (JObject d1) (remote_addr req1) = Ok session_id /\
    session_of (JObject d2) (remote_addr req2) = Ok session_id /\
    key_of session_id = Some key /\
    body (fst (ask_question w req1 service))
    = AnswerBody (strip text) answer sources session_id /\
    last (recent (sessions (snd (ask_question w req1 service))) key 4)
    = Some {| question := strip text; answer := answer; timestamp := time_time w |}.
Proof.
  intros Hj1 Hj2 Hs1 Hs2 Haddr Hq Hne Hlen.
  destruct (ask_question_run w req1 service)
    as [(_ & _ & _ & Hbad)
       |(d & text' & key & answer & sources & Hj & Hq' & Hk & _ & Hr & _ & _ & Hs)].
  - destruct (Hbad d1 text (KStr (default_session (remote_addr req1))) Hj1 Hq);
      [by rewrite Hs1|done|lia].
  - rewrite Hj1 in Hj. injection Hj as <-. rewrite Hq in Hq'. injection Hq' as <-.
    rewrite Hs1 in Hk, Hr. simpl in Hk, Hr. injection Hk as <-.
    exists answer, sources, (JString (default_session (remote_addr req1))),
      (KStr (default_session (remote_addr req1))).
    unfold session_of, json_get. rewrite Hs1, Hs2, Haddr.
    split; [done|]. split; [done|]. split; [done|].
    rewrite Hr, Hs, <- Haddr. split; [done|]. apply recent_after_save.
Qed.

Lemma same_address_same_history_witness :
  exists (answer : str) (sources : list Source) (session_id : Json) (key : Key),
    session_of (JObject good_body) (remote_addr good_request) = Ok session_id /\
    session_of (JObject {[ u "question" := JString (u "   ") ]})
      (remote_addr blank_request) = Ok session_id /\
    key_of session_id = Some key /\
    body (fst (ask_question hit_world good_request (fresh [])))
    = AnswerBody (strip (u "  What do you do?  ")) answer sources session_id /\
    last (recent (sessions (snd (ask_question hit_world good_request (fresh [])))) key 4)
    = Some {| question := strip (u "  What do you do?  "); answer := answer;
              timestamp := time_time hit_world |}.
Proof.
  apply (same_address_same_history hit_world good_request blank_request (fresh [])
           good_body {[ u "question" := JString (u "   ") ]} (u "  What do you do?  ")).
  - reflexivity.
  - reflexivity.
  - vm_compute. reflexivity.
  - vm_compute. reflexivity.
  - reflexivity.
  - vm_compute. reflexivity.
  - vm_compute. discriminate.
  - vm_compute. discriminate.
Defined.

(** ** A short case *)

(** X23: a case whose full_text has at most 1000 characters is not
    chunked and not trimmed: if its embedding succeeds, the text itself, even
    an empty or blank one, is the one document handed to the index, with
    chunk_index 0, total_chunks 1 and the id case_1_0. *)
Theorem add_cases_short_case (fuel : nat) (ing : Ingest) (collection : list Entry)
    (cases_file : str) (case : gmap str str)
    (case_url case_title case_description full_text : str) (embedding : list float) :
  read_cases ing cases_file = Ok [case] ->
  case !! u "url" = Some case_url -> case !! u "title" = Some case_title ->
  case !! u "description" = Some case_description ->
  case !! u "full_text" = Some full_text ->
  len full_text <= 1000 ->
  _get_embedding (embed_nth ing 0) full_text (u "retrieval_document") = Some embedding ->
  add_cases fuel ing collection cases_file
  = Some (match collection_add ing collection [full_text] [embedding]
                  [{| url := case_url; title := case_title;
                      description := case_description;
                      chunk_index := 0; total_chunks := 1 |}]
                  [u "case_1_0"] with
          | (Ok _, collection') => (Ok 1, collection')
          | (Raise e, collection') => (Raise e, collection')
          end).
Proof.
  intros Hread Hu Ht Hd Hf Hlen Hemb. unfold add_cases. rewrite Hread. simpl.
  apply getkey_Ok in Hu, Ht, Hd, Hf. rewrite Ht, Hf.
  unfold _chunk_text. destruct (Z.leb_spec (len full_text) 1000) as [_|?]; [|lia].
  simpl. rewrite Hemb, Hu, Ht, Hd. simpl.
  change (case_id (len [full_text]) 0) with (u "case_1_0").
  change (len [full_text]) with 1.
  by destruct (collection_add _ _ _ _ _ _) as [[[]|] c].
Qed.

Lemma add_cases_short_case_witness :
  add_cases 0 (sample_ingest hit_world [sample_case []]) [] (u "cases.json")
  = Some (match collection_add (sample_ingest hit_world [sample_case []]) [] [[]]
                  [[PrimFloat.one; PrimFloat.zero]]
                  [{| url := u "https://eora.ru/cases/a"; title := u "A";
                      description := u "d"; chunk_index := 0; total_chunks := 1 |}]
                  [u "case_1_0"] with
          | (Ok _, collection') => (Ok 1, collection')
          | (Raise e, collection') => (Raise e, collection')
          end).
Proof.
  apply (add_cases_short_case 0 (sample_ingest hit_world [sample_case []]) []
           (u "cases.json") (sample_case [])); vm_compute; (reflexivity || discriminate).
Defined.
